(** * MidiToTab: the fretboard-assignment engine of [tabs.py]

    A shallow embedding of the [Tabs] class (start-position finder, note
    assigner, tab renderer) and of the static tables it reads, followed by
    the properties of the natural-language specification that were checked
    against it. *)

From Stdlib Require Import ZArith Lia Ascii String.
From stdpp Require Import base strings list sorting gmap fin_maps pretty.

Local Open Scope string_scope.
Local Open Scope list_scope.
Local Open Scope Z_scope.

(** ** Python values and exceptions *)

(** The built-in exceptions that the modelled code can raise. *)
Inductive exn : Set :=
| KeyError
| IndexError
| TypeError
| AttributeError.

(** The outcome of a call: a value, or a raised exception. *)
Inductive res (A : Type) : Type :=
| Ok (a : A)
| Raise (e : exn).
Arguments Ok {A} a.
Arguments Raise {A} e.

Definition res_bind {A B : Type} (r : res A) (k : A → res B) : res B :=
  match r with
  | Ok a => k a
  | Raise e => Raise e
  end.

Notation "'letr' x ':=' r 'in' k" := (res_bind r (fun x => k))
  (at level 10, x pattern, r at level 100, k at level 200, only parsing).

(** A fret entry of [NOTE_TO_STRING]: an [int], or the empty string [''],
    modelled as [None]. *)
Abbreviation entry := (option Z) (only parsing).

(** Truth value of a fret entry, as [if not note_fret] and
    [while ... and note_fret] test it: [''] and [0] are false. *)
Definition truthy (e : entry) : bool :=
  match e with
  | Some f => negb (f =? 0)
  | None => false
  end.

(** ** Strings the way Python indexes and slices them *)

(** [c * n]: the character repeated, empty when [n <= 0]. *)
Definition str_repeat (c : ascii) (n : Z) : string :=
  Nat.iter (Z.to_nat n) (String c) "".

Definition len (s : string) : Z := Z.of_nat (String.length s).

(** [s[i]], with Python's negative indices and its [IndexError]. *)
Definition str_index (s : string) (i : Z) : res ascii :=
  let j := if i <? 0 then i + len s else i in
  if (j <? 0) || (len s <=? j) then Raise IndexError
  else match String.get (Z.to_nat j) s with
       | Some c => Ok c
       | None => Raise IndexError
       end.

(** Bound of a slice: negative bounds count from the end, and the result
    is clamped to [[0, len s]]. *)
Definition slice_bound (n i : Z) : Z :=
  if i <? 0 then Z.max (i + n) 0 else Z.min i n.

(** [s[start:stop]]. *)
Definition str_slice (s : string) (start stop : Z) : string :=
  let a := slice_bound (len s) start in
  let b := slice_bound (len s) stop in
  String.substring (Z.to_nat a) (Z.to_nat (b - a)) s.

(** [s[start:]]. *)
Definition str_from (s : string) (start : Z) : string :=
  str_slice s start (len s).

(** [l[i]] on a list, with negative indices and [IndexError]. *)
Definition list_index {A : Type} (l : list A) (i : Z) : res A :=
  let n := Z.of_nat (length l) in
  let j := if i <? 0 then i + n else i in
  if (j <? 0) || (n <=? j) then Raise IndexError
  else match l !! Z.to_nat j with
       | Some x => Ok x
       | None => Raise IndexError
       end.

(** [l[i] = x] on a list, same indexing. *)
Definition list_assign {A : Type} (l : list A) (i : Z) (x : A) : res (list A) :=
  let n := Z.of_nat (length l) in
  let j := if i <? 0 then i + n else i in
  if (j <? 0) || (n <=? j) then Raise IndexError
  else Ok (<[Z.to_nat j := x]> l).

(** ** Constants of [tabs.py] *)

Definition GUITAR_STRING : Z := 6.
Definition MAX_RENDER_COLUMNS : Z := 70.
Definition TAB_LINE_CHAR : ascii := "-"%char.

(** [GUITAR_STAFF]: a dict keyed by [0..5], read with [GUITAR_STAFF[idx]]. *)
Definition GUITAR_STAFF : gmap Z string :=
  <[5 := "E"]> (<[4 := "B"]> (<[3 := "G"]> (<[2 := "D"]> (<[1 := "A"]> (<[0 := "E"]> ∅))))).

Definition MAJOR := "major".
Definition IONIAN := "ionian".
Definition DORIAN := "dorian".
Definition PHRYGIAN := "phrygian".
Definition LYDIAN := "lydian".
Definition LOCRIAN := "locrian".
Definition MINOR := "minor".
Definition AEOLIAN := "aeolian".
Definition JAZZ_MINOR := "jazz_minor".

(** A dict display [{k1: v1, k2: v2, ...}] inserts its items from left to
    right, so a repeated key keeps its last value. *)
Definition dict_display {V : Type} (items : list (string * V)) : gmap string V :=
  foldl (fun m kv => <[kv.1 := kv.2]> m) ∅ items.

(** [SCALE]: the interval steps of each mode. *)
Definition SCALE_items : list (string * list Z) :=
  [ ("major",      [2; 2; 1; 2; 2; 2; 1]);
    ("ionian",     [2; 2; 1; 2; 2; 2; 1]);
    ("dorian",     [2; 1; 2; 2; 2; 1; 2]);
    ("phrygian",   [1; 2; 2; 2; 1; 2; 2]);
    ("lydian",     [2; 2; 2; 1; 2; 2; 1]);
    ("mixolydian", [2; 2; 1; 2; 2; 1; 2]);
    ("locrian",    [1; 2; 2; 1; 2; 2; 2]);
    ("minor",      [2; 1; 2; 2; 1; 2; 2]);
    ("aeolian",    [2; 1; 2; 2; 1; 2; 2]);
    ("jazz_minor", [2; 1; 2; 2; 2; 2; 1]) ].

Definition SCALE : gmap string (list Z) := dict_display SCALE_items.

(** A row of [NOTE_TO_STRING]: the dict [{1: _, 2: _, ..., 6: _}], kept as
    its items in insertion order, which is the order [.items()] yields. *)
Abbreviation row := (list (Z * option Z)) (only parsing).

Definition mk_row (e1 e2 e3 e4 e5 e6 : entry) : row :=
  [(1, e1); (2, e2); (3, e3); (4, e4); (5, e5); (6, e6)].

(** [NOTE_TO_STRING]: for each pitch name, the fret that sounds it on each
    of the six strings.  The items are those of the dict display, in source
    order; ['F2'] and ['B1'] occur twice in it. *)
Definition NOTE_TO_STRING_items : list (string * list (Z * option Z)) :=
  [
    ("F4", mk_row (Some 1) (Some 6) (Some 10) (Some 15) (Some 20) None);
    ("F#4", mk_row (Some 2) (Some 7) (Some 11) (Some 16) (Some 21) None);
    ("G4", mk_row (Some 3) (Some 8) (Some 12) (Some 17) (Some 22) None);
    ("Ab4", mk_row (Some 4) (Some 9) (Some 13) (Some 18) None None);
    ("G#4", mk_row (Some 4) (Some 9) (Some 13) (Some 18) None None);
    ("A4", mk_row (Some 5) (Some 10) (Some 14) (Some 19) None None);
    ("Bb4", mk_row (Some 6) (Some 11) (Some 15) (Some 20) None None);
    ("A#4", mk_row (Some 6) (Some 11) (Some 15) (Some 20) None None);
    ("B4", mk_row (Some 7) (Some 12) (Some 16) (Some 21) None None);
    ("C5", mk_row (Some 8) (Some 13) (Some 17) (Some 22) None None);
    ("C#5", mk_row (Some 9) (Some 14) (Some 18) None None None);
    ("D5", mk_row (Some 10) (Some 15) (Some 19) None None None);
    ("Eb5", mk_row (Some 11) (Some 16) (Some 20) None None None);
    ("D#5", mk_row (Some 11) (Some 16) (Some 20) None None None);
    ("E5", mk_row (Some 12) (Some 17) (Some 21) None None None);
    ("F5", mk_row (Some 13) (Some 18) (Some 22) None None None);
    ("F#5", mk_row (Some 14) (Some 19) None None None None);
    ("G5", mk_row (Some 15) (Some 20) None None None None);
    ("Ab5", mk_row (Some 16) (Some 21) None None None None);
    ("G#5", mk_row (Some 16) (Some 21) None None None None);
    ("A5", mk_row (Some 17) (Some 22) None None None None);
    ("Bb5", mk_row (Some 18) None None None None None);
    ("A#5", mk_row (Some 18) None None None None None);
    ("B5", mk_row (Some 19) None None None None None);
    ("C6", mk_row (Some 20) None None None None None);
    ("C#6", mk_row (Some 21) None None None None None);
    ("D6", mk_row (Some 22) None None None None None);
    ("C4", mk_row None (Some 1) (Some 5) (Some 10) (Some 15) (Some 20));
    ("C#4", mk_row None (Some 2) (Some 6) (Some 11) (Some 16) (Some 21));
    ("D4", mk_row None (Some 3) (Some 7) (Some 12) (Some 17) (Some 22));
    ("Eb4", mk_row None (Some 4) (Some 8) (Some 13) (Some 18) None);
    ("D#4", mk_row None (Some 4) (Some 8) (Some 13) (Some 18) None);
    ("E4", mk_row None (Some 5) (Some 9) (Some 14) (Some 19) None);
    ("Ab3", mk_row None None (Some 1) (Some 6) (Some 11) (Some 16));
    ("G#3", mk_row None None (Some 1) (Some 6) (Some 11) (Some 16));
    ("A3", mk_row None None (Some 2) (Some 7) (Some 12) (Some 17));
    ("Bb3", mk_row None None (Some 3) (Some 8) (Some 13) (Some 18));
    ("A#3", mk_row None None (Some 3) (Some 8) (Some 13) (Some 18));
    ("B3", mk_row None None (Some 4) (Some 9) (Some 14) (Some 19));
    ("Eb3", mk_row None None None (Some 1) (Some 6) (Some 11));
    ("D#3", mk_row None None None (Some 1) (Some 6) (Some 11));
    ("E3", mk_row None None None (Some 2) (Some 7) (Some 12));
    ("F3", mk_row None None None (Some 3) (Some 8) (Some 13));
    ("F#3", mk_row None None None (Some 4) (Some 9) (Some 14));
    ("G3", mk_row None None None (Some 5) (Some 10) (Some 15));
    ("Bb2", mk_row None None None None (Some 1) (Some 6));
    ("A#2", mk_row None None None None (Some 1) (Some 6));
    ("B2", mk_row None None None None (Some 2) (Some 7));
    ("C3", mk_row None None None None (Some 3) (Some 8));
    ("C#3", mk_row None None None None (Some 4) (Some 9));
    ("D3", mk_row None None None None (Some 5) (Some 10));
    ("F2", mk_row None None None None None (Some 1));
    ("F#2", mk_row None None None None None (Some 2));
    ("G2", mk_row None None None None None (Some 3));
    ("Ab2", mk_row None None None None None (Some 4));
    ("G#2", mk_row None None None None None (Some 4));
    ("A2", mk_row None None None None None (Some 5));
    ("B1", mk_row None None None None None (Some 5));
    ("C#2", mk_row None None None None None None);
    ("Db2", mk_row None None None None None None);
    ("D2", mk_row None None None None None None);
    ("D#2", mk_row None None None None None None);
    ("Eb2", mk_row None None None None None None);
    ("E2", mk_row None None None None None None);
    ("F2", mk_row None None None None None None);
    ("F#1", mk_row None None None None None None);
    ("Gb1", mk_row None None None None None None);
    ("G1", mk_row None None None None None None);
    ("G#1", mk_row None None None None None None);
    ("Ab1", mk_row None None None None None None);
    ("A1", mk_row None None None None None None);
    ("A#1", mk_row None None None None None None);
    ("Bb1", mk_row None None None None None None);
    ("B1", mk_row None None None None None None);
    ("F7", mk_row (Some 14) (Some 19) None None None None)
  ].

Definition NOTE_TO_STRING : gmap string (list (Z * option Z)) :=
  dict_display NOTE_TO_STRING_items.

(** [MIDI_TO_NOTES]: the pitch names of each MIDI note number; an entry
    with two names lists the two spellings of one pitch. *)
Definition MIDI_TO_NOTES_items : list (Z * list string) :=
  [
    (0, [EmptyString]);
    (1, [EmptyString]);
    (10, [EmptyString]);
    (100, ["E7"]);
    (101, ["F7"]);
    (102, ["F#7"; "Gb7"]);
    (103, ["G7"]);
    (104, ["G#7"; "Ab7"]);
    (105, ["A7"]);
    (106, ["A#7"; "Bb7"]);
    (107, ["B7"]);
    (108, ["C8"]);
    (109, ["C#8"; "Db8"]);
    (11, [EmptyString]);
    (110, ["D8"]);
    (111, ["D#8"; "Eb8"]);
    (112, ["E8"]);
    (113, ["F8"]);
    (114, ["F#8"; "Gb8"]);
    (115, ["G8"]);
    (116, ["G#8"; "Ab8"]);
    (117, ["A8"]);
    (118, ["A#8"; "Bb8"]);
    (119, ["B8"]);
    (12, [EmptyString]);
    (120, ["C9"]);
    (121, ["C#9"; "Db9"]);
    (122, ["D9"]);
    (123, ["D#9"; "Eb9"]);
    (124, ["E9"]);
    (125, ["F9"]);
    (126, ["F#9"; "Gb9"]);
    (127, ["G9"]);
    (13, [EmptyString]);
    (14, [EmptyString]);
    (15, [EmptyString]);
    (16, [EmptyString]);
    (17, [EmptyString]);
    (18, [EmptyString]);
    (19, [EmptyString]);
    (2, [EmptyString]);
    (20, [EmptyString]);
    (21, ["A0"]);
    (22, ["A#0"; "Bb0"]);
    (23, ["B0"]);
    (24, ["C1"]);
    (25, ["C#1"; "Db1"]);
    (26, ["D1"]);
    (27, ["D#1"; "Eb1"]);
    (28, ["E1"]);
    (29, ["F1"]);
    (3, [EmptyString]);
    (30, ["F#1"; "Gb1"]);
    (31, ["G1"]);
    (32, ["G#1"; "Ab1"]);
    (33, ["A1"]);
    (34, ["A#1"; "Bb1"]);
    (35, ["B1"]);
    (36, ["C2"]);
    (37, ["C#2"; "Db2"]);
    (38, ["D2"]);
    (39, ["D#2"; "Eb2"]);
    (4, [EmptyString]);
    (40, ["E2"]);
    (41, ["F2"]);
    (42, ["F#2"; "Gb2"]);
    (43, ["G2"]);
    (44, ["G#2"; "Ab2"]);
    (45, ["A2"]);
    (46, ["A#2"; "Bb2"]);
    (47, ["B2"]);
    (48, ["C3"]);
    (49, ["C#3"; "Db3"]);
    (5, [EmptyString]);
    (50, ["D3"]);
    (51, ["D#3"; "Eb3"]);
    (52, ["E3"]);
    (53, ["F3"]);
    (54, ["F#3"; "Gb3"]);
    (55, ["G3"]);
    (56, ["G#3"; "Ab3"]);
    (57, ["A3"]);
    (58, ["A#3"; "Bb3"]);
    (59, ["B3"]);
    (6, [EmptyString]);
    (60, ["C4"]);
    (61, ["C#4"; "Db4"]);
    (62, ["D4"]);
    (63, ["D#4"; "Eb4"]);
    (64, ["E4"]);
    (65, ["F4"]);
    (66, ["F#4"; "Gb4"]);
    (67, ["G4"]);
    (68, ["G#4"; "Ab4"]);
    (69, ["A4"]);
    (7, [EmptyString]);
    (70, ["A#4"; "Bb4"]);
    (71, ["B4"]);
    (72, ["C5"]);
    (73, ["C#5"; "Db5"]);
    (74, ["D5"]);
    (75, ["D#5"; "Eb5"]);
    (76, ["E5"]);
    (77, ["F5"]);
    (78, ["F#5"; "Gb5"]);
    (79, ["G5"]);
    (8, [EmptyString]);
    (80, ["G#5"; "Ab5"]);
    (81, ["A5"]);
    (82, ["A#5"; "Bb5"]);
    (83, ["B5"]);
    (84, ["C6"]);
    (85, ["C#6"; "Db6"]);
    (86, ["D6"]);
    (87, ["D#6"; "Eb6"]);
    (88, ["E6"]);
    (89, ["F6"]);
    (9, [EmptyString]);
    (90, ["F#6"; "Gb6"]);
    (91, ["G6"]);
    (92, ["G#6"; "Ab6"]);
    (93, ["A6"]);
    (94, ["A#6"; "Bb6"]);
    (95, ["B6"]);
    (96, ["C7"]);
    (97, ["C#7"; "Db7"]);
    (98, ["D7"]);
    (99, ["D#7"; "Eb7"])
  ].

Definition MIDI_TO_NOTES : gmap Z (list string) :=
  foldl (fun m kv => <[kv.1 := kv.2]> m) ∅ MIDI_TO_NOTES_items.

(** [d[k]] on a dict: [KeyError] when the key is missing. *)
Definition dict_item `{Countable K} {V : Type} (d : gmap K V) (k : K) : res V :=
  match d !! k with
  | Some v => Ok v
  | None => Raise KeyError
  end.

(** ** Pitches, keys and scales *)

(** What [_fix_note_name] and the key carry as a pitch: a [str], or a
    music21 [Pitch] object, of which the code reads [nameWithOctave] and
    [implicitOctave]. *)
Inductive pitch_arg : Set :=
| PStr (name : string)
| PObj (nameWithOctave : string) (implicitOctave : Z).

(** The music21 scale classes that [_get_scale] instantiates. *)
Inductive scale_class : Set :=
| MajorScale
| MinorScale
| DorianScale
| PhrygianScale
| LydianScale
| LocrianScale.

(** A scale object: the class and the pitch given to its constructor. *)
Record scale_obj : Set := { sc_class : scale_class; sc_pitch : pitch_arg }.

(** music21 is a library outside the repository: the one thing the code
    reads from a scale object, [[note.nameWithOctave for note in
    sc.pitches]], is an operation of this interface. *)
Class Music21 := { pitches : scale_obj → list string }.

(** A performed note: the dict [{'note': ..., 'time': ...}] that
    [MIDIParser.notes_played] builds. *)
Record performed : Set := { note : string; time : Z }.

(** The [Tabs] object: its three attributes.  (An element of [to_play],
    the tuple [(note, note_string, note_fret)], has the type
    [string * option Z * option Z]: the two numbers are [None] in the
    tuple that is made of the answer [(None, None)].) *)
Record Tabs := {
  notes : list performed;
  key : pitch_arg * string;
  notes_cache : gmap string (Z * Z)
}.

(** [Tabs.__init__]. *)
Definition Tabs_init (notes : list performed) (key : pitch_arg * string) : Tabs :=
  {| notes := notes; key := key; notes_cache := ∅ |}.

Definition set_notes_cache (t : Tabs) (c : gmap string (Z * Z)) : Tabs :=
  {| notes := notes t; key := key t; notes_cache := c |}.

(** [name.replace(a, b)] for single characters. *)
Fixpoint str_replace (a b : ascii) (s : string) : string :=
  match s with
  | EmptyString => EmptyString
  | String c s' => String (if Ascii.eqb c a then b else c) (str_replace a b s')
  end.

(** Whether [int(c)] succeeds on the one-character string [c]
    (the ASCII digits). *)
Definition is_digit (c : ascii) : bool :=
  let n := Z.of_N (N_of_ascii c) in (48 <=? n) && (n <=? 57).

(** [Tabs._fix_note_name].  On a [str] without a final digit the handler
    of [ValueError] reads [pitch.implicitOctave], which a [str] lacks. *)
Definition _fix_note_name (pitch : pitch_arg) : res string :=
  let name := match pitch with
              | PStr s => s
              | PObj s _ => s
              end in
  let name := str_replace "-"%char "b"%char name in
  letr c := str_index name (-1) in
  if is_digit c then Ok name
  else match pitch with
       | PStr _ => Raise AttributeError
       | PObj _ o => Ok (name +:+ pretty o)
       end.

(** [Tabs._get_scale]. *)
Definition _get_scale (t : Tabs) : scale_obj :=
  let '(pitch, scale_type) := key t in
  if bool_decide (scale_type ∈ [MAJOR; IONIAN]) then
    {| sc_class := MajorScale; sc_pitch := pitch |}
  else if bool_decide (scale_type ∈ [MINOR; AEOLIAN]) then
    {| sc_class := MinorScale; sc_pitch := pitch |}
  else if bool_decide (scale_type = DORIAN) then
    {| sc_class := DorianScale; sc_pitch := pitch |}
  else if bool_decide (scale_type = PHRYGIAN) then
    {| sc_class := PhrygianScale; sc_pitch := pitch |}
  else if bool_decide (scale_type = LYDIAN) then
    {| sc_class := LydianScale; sc_pitch := pitch |}
  else if bool_decide (scale_type = LOCRIAN) then
    {| sc_class := LocrianScale; sc_pitch := pitch |}
  else
    {| sc_class := MajorScale; sc_pitch := pitch |}.

(** ** The start-position finder *)

(** The variables of [find_start] that outlive one candidate walk. *)
Record finder : Set := {
  max_count : Z;
  start_fret : Z;
  start_string : Z;
  start_scale_notes : list (Z * Z)
}.

(** The variables of one candidate walk.  [w_shared] tells whether
    [start_scale_notes] is the very list object [note_list]: after
    [start_scale_notes = note_list] an append to the one shows in the
    other. *)
Record walk : Set := {
  w_string : Z;
  w_fret : Z;
  w_num_notes : Z;
  w_step : Z;
  w_note_list : list (Z * Z);
  w_shared : bool
}.

Definition finder0 : finder :=
  {| max_count := 0; start_fret := 0; start_string := 0; start_scale_notes := [] |}.

(** The [while string > 0 and span > 0 and note_fret] loop, for a truthy
    [note_fret]; [span] counts down from 8. *)
Fixpoint walk_loop (steps : list Z) (note_string note_fret : Z)
    (span : nat) (w : walk) (st : finder) : res (walk * finder) :=
  match span with
  | O => Ok (w, st)
  | S span' =>
    if 0 <? w_string w then
      letr d := list_index steps (w_step w) in
      let fret := w_fret w + d in
      let step := w_step w + 1 in
      let num_notes := w_num_notes w + 1 in
      let note_list := w_note_list w ++ [(fret, w_string w)] in
      let st := if w_shared w
                then {| max_count := max_count st; start_fret := start_fret st;
                        start_string := start_string st;
                        start_scale_notes := note_list |}
                else st in
      let step := if Z.of_nat (length steps) <=? step then 0 else step in
      let '(fret, string) :=
        if note_fret + 3 <? fret
        then (fret - (if w_string w =? 2 then 4 else 5), w_string w - 1)
        else (fret, w_string w) in
      let '(st, shared) :=
        if max_count st <? num_notes
        then ({| max_count := num_notes; start_fret := note_fret;
                 start_string := note_string;
                 start_scale_notes := note_list |}, true)
        else (st, w_shared w) in
      walk_loop steps note_string note_fret span'
        {| w_string := string; w_fret := fret; w_num_notes := num_notes;
           w_step := step; w_note_list := note_list; w_shared := shared |} st
    else Ok (w, st)
  end.

(** One turn of [for note_string, note_fret in note_info.items()].  For a
    falsy [note_fret] the [while] loop is not entered and nothing that
    is returned changes. *)
Definition candidate (steps : list Z) (st : finder) (item : Z * option Z)
    : res finder :=
  let '(note_string, e) := item in
  match e with
  | Some note_fret =>
    if truthy e then
      letr r := walk_loop steps note_string note_fret 8
                  {| w_string := note_string; w_fret := note_fret;
                     w_num_notes := 0; w_step := 0;
                     w_note_list := [(note_fret, note_string)];
                     w_shared := false |} st in
      Ok r.2
    else Ok st
  | None => Ok st
  end.

Fixpoint candidates (steps : list Z) (st : finder) (items : list (Z * option Z))
    : res finder :=
  match items with
  | [] => Ok st
  | item :: items' =>
    letr st' := candidate steps st item in
    candidates steps st' items'
  end.

(** [Tabs.find_start]. *)
Definition find_start `{Music21} (t : Tabs) : res (Z * Z * list (Z * Z)) :=
  let '(pitch, scale_type) := key t in
  letr _ := _fix_note_name pitch in
  letr this_scale_step := dict_item SCALE scale_type in
  let sc := _get_scale t in
  let this_scale_notes := pitches sc in
  letr first_note := list_index this_scale_notes 0 in
  letr name := _fix_note_name (PStr first_note) in
  letr note_info := dict_item NOTE_TO_STRING name in
  letr st := candidates this_scale_step finder0 note_info in
  Ok (start_fret st, start_string st, start_scale_notes st).

(** ** The note assigner *)

(** How the [for] loop of [note_nearest_to_fret] ends: by one of its two
    [return] statements, or by running to its end with the nearest
    position found so far. *)
Inductive scan_end : Set :=
| Returned (p : Z * Z)
| Finished (min_fret min_string : Z).

(** The loop [for note_string, note_fret in note_info.items()] of
    [note_nearest_to_fret].  [cached] is [self.notes_cache.get(note)], which
    the loop reads and never writes; a cached tuple is always truthy.
    [fret] is [None] only after a [(None, None)] result, and
    [abs(note_fret - None)] is a [TypeError]. *)
Fixpoint scan (cached : option (Z * Z)) (fret : option Z)
    (scale_notes : list (Z * Z)) (items : list (Z * option Z))
    (min_fret min_string min_diff : Z) : res scan_end :=
  match items with
  | [] => Ok (Finished min_fret min_string)
  | (note_string, e) :: items' =>
    match e with
    | Some note_fret =>
      if negb (truthy e) then
        scan cached fret scale_notes items' min_fret min_string min_diff
      else if bool_decide ((note_fret, note_string) ∈ scale_notes) then
        Ok (Returned (note_fret, note_string))
      else match cached with
      | Some p => Ok (Returned p)
      | None =>
        match fret with
        | None => Raise TypeError
        | Some fret' =>
          let diff := Z.abs (note_fret - fret') in
          if diff <=? min_diff
          then scan cached fret scale_notes items' note_fret note_string diff
          else scan cached fret scale_notes items' min_fret min_string min_diff
        end
      end
    | None => scan cached fret scale_notes items' min_fret min_string min_diff
    end
  end.

(** [Tabs.note_nearest_to_fret], with the cache before and after.  A dict
    is truthy when it is not empty. *)
Definition note_nearest_to_fret (cache : gmap string (Z * Z)) (fret : option Z)
    (note : string) (scale_notes : list (Z * Z))
    : res (option Z * option Z) * gmap string (Z * Z) :=
  match NOTE_TO_STRING !! note with
  | Some (item :: items) =>
    match scan (cache !! note) fret scale_notes (item :: items) 999 999 999 with
    | Raise e => (Raise e, cache)
    | Ok (Returned p) => (Ok (Some p.1, Some p.2), cache)
    | Ok (Finished min_fret min_string) =>
      (Ok (Some min_fret, Some min_string),
       <[note := (min_fret, min_string)]> cache)
    end
  | _ => (Ok (None, None), cache)
  end.

(** The [for note in self.notes] loop of [generate_notes]: the list it
    returns is [to_play], whose appends happen in the order of the
    recursion. *)
Fixpoint assign_notes (scale_notes : list (Z * Z)) (ns : list performed)
    (fret : option Z) (cache : gmap string (Z * Z))
    : res (list (string * option Z * option Z)) * gmap string (Z * Z) :=
  match ns with
  | [] => (Ok [], cache)
  | n :: ns' =>
    match NOTE_TO_STRING !! note n with
    | None => assign_notes scale_notes ns' fret cache
    | Some _ =>
      match note_nearest_to_fret cache fret (note n) scale_notes with
      | (Raise e, cache') => (Raise e, cache')
      | (Ok (note_fret, note_string), cache') =>
        match assign_notes scale_notes ns' note_fret cache' with
        | (Ok to_play, cache'') =>
          (Ok ((note n, note_string, note_fret) :: to_play), cache'')
        | (Raise e, cache'') => (Raise e, cache'')
        end
      end
    end
  end.

(** [Tabs.generate_notes]: the result, and the object with the cache the
    call leaves in it. *)
Definition generate_notes `{Music21} (t : Tabs)
    : res (list (string * option Z * option Z)) * Tabs :=
  match find_start t with
  | Raise e => (Raise e, t)
  | Ok (fret, _, scale_notes) =>
    let '(r, cache) :=
      assign_notes scale_notes (notes t) (Some fret) (notes_cache t) in
    (r, set_notes_cache t cache)
  end.

(** ** The tab renderer *)

(** [str(note_fret)]. *)
Definition str_of (v : option Z) : string :=
  match v with
  | Some z => pretty z
  | None => "None"
  end.

(** The inner loop [for idx, fretboard_string in enumerate(fretboard)]:
    the string of the note is padded up to every string longer than it. *)
Fixpoint align (idxs : list nat) (idx_note_string : Z) (fretboard : list string)
    : res (list string) :=
  match idxs with
  | [] => Ok fretboard
  | idx :: idxs' =>
    match fretboard !! idx with
    | None => Ok fretboard
    | Some fretboard_string =>
      letr target := list_index fretboard idx_note_string in
      if len target <? len fretboard_string then
        let diff := len fretboard_string - len target in
        letr fretboard' := list_assign fretboard idx_note_string
                             (target +:+ str_repeat TAB_LINE_CHAR diff) in
        align idxs' idx_note_string fretboard'
      else align idxs' idx_note_string fretboard
    end
  end.

(** The loop [for note, note_string, note_fret in notes_list].
    [int(None)] is a [TypeError]. *)
Fixpoint place (notes_list : list (string * option Z * option Z))
    (fretboard : list string) : res (list string) :=
  match notes_list with
  | [] => Ok fretboard
  | (_, note_string, note_fret) :: notes_list' =>
    match note_string with
    | None => Raise TypeError
    | Some s =>
      let idx_note_string := s - 1 in
      letr fretboard1 := align (seq 0 (length fretboard)) idx_note_string fretboard in
      let fret := str_of note_fret in
      letr target := list_index fretboard1 idx_note_string in
      letr fretboard2 := list_assign fretboard1 idx_note_string
          (target +:+ String TAB_LINE_CHAR (fret +:+ String TAB_LINE_CHAR "")) in
      place notes_list' fretboard2
    end
  end.

(** [len(max(fretboard, key=len))] for the six strings. *)
Definition max_len (fretboard : list string) : Z :=
  foldr (fun s m => Z.max (len s) m) 0 fretboard.

(** The loop that pads every string to [max_staff_length]. *)
Definition pad_all (fretboard : list string) : list string :=
  let max_staff_length := max_len fretboard in
  map (fun s => s +:+ str_repeat TAB_LINE_CHAR (max_staff_length - len s)) fretboard.

(** The loop [for string in fretboard] that moves [break_point]:
    [string[break_point]] is an [IndexError] past the end of the string. *)
Fixpoint find_break (fretboard : list string) (break_point : Z) : res Z :=
  match fretboard with
  | [] => Ok break_point
  | s :: fretboard' =>
    letr c := str_index s break_point in
    if negb (Ascii.eqb c TAB_LINE_CHAR)
    then find_break fretboard' (break_point + 1)
    else find_break fretboard' break_point
  end.

(** The lines of one block: [GUITAR_STAFF[idx] + string[start:end]]. *)
Fixpoint block (idx : Z) (fretboard : list string) (start stop : Z)
    : res (list string) :=
  match fretboard with
  | [] => Ok []
  | s :: fretboard' =>
    letr label := dict_item GUITAR_STAFF idx in
    letr rest := block (idx + 1) fretboard' start stop in
    Ok ((label +:+ str_slice s start stop) :: rest)
  end.

(** The [while True] loop; [None] when the turns allowed by [fuel] do not
    reach its [break]. *)
Fixpoint emit (fuel : nat) (fretboard : list string) (staff_length break_point : Z)
    (string_idx start stop : Z) (output : list string)
    : option (res (list string)) :=
  match fuel with
  | O => None
  | S fuel' =>
    match list_index fretboard string_idx with
    | Raise e => Some (Raise e)
    | Ok s =>
      if bool_decide (str_from s start = "") && (staff_length <? start)
      then Some (Ok output)
      else
        match block 0 fretboard start stop with
        | Raise e => Some (Raise e)
        | Ok lines =>
          emit fuel' fretboard staff_length break_point
            ((string_idx + 1) `mod` GUITAR_STRING)
            stop (stop + break_point) (output ++ lines ++ [""])
        end
    end
  end.

(** [Tabs.render]; [staff_length] is the keyword argument, when given. *)
Definition render (fuel : nat) (notes_list : list (string * option Z * option Z))
    (staff_length : option Z) : option (res (list string)) :=
  let staff_length := default MAX_RENDER_COLUMNS staff_length in
  let fretboard := replicate (Z.to_nat GUITAR_STRING) "" in
  match place notes_list fretboard with
  | Raise e => Some (Raise e)
  | Ok fretboard =>
    let fretboard := pad_all fretboard in
    match find_break fretboard staff_length with
    | Raise e => Some (Raise e)
    | Ok break_point =>
      emit fuel fretboard staff_length break_point 0 0 break_point []
    end
  end.

(** ** The other tables and [midi.py] *)

(** [FRET_NOTES]: for each string, from the highest to the lowest, the
    names of the pitches of its frets 1 to 22. *)
Definition FRET_NOTES : list (list string) :=
  [
    ["F4"; "F#4"; "G4"; "Ab4"; "A4"; "Bb4"; "B4"; "C5"; "C#5"; "D5"; "Eb5"; "E5"; "F5"; "F#5"; "G5"; "Ab5"; "A5"; "Bb5"; "B5"; "C6"; "C#6"; "D6"];
    ["C4"; "C#4"; "D4"; "Eb4"; "E4"; "F4"; "F#4"; "G4"; "Ab4"; "A4"; "Bb4"; "B4"; "C5"; "C#5"; "D5"; "Eb5"; "E5"; "F5"; "F#5"; "G5"; "Ab5"; "A5"];
    ["Ab3"; "A3"; "Bb3"; "B3"; "C4"; "C#4"; "D4"; "Eb4"; "E4"; "F4"; "F#4"; "G4"; "Ab4"; "A4"; "Bb4"; "B4"; "C5"; "C#5"; "D5"; "Eb5"; "E5"; "F5"];
    ["Eb3"; "E3"; "F3"; "F#3"; "G3"; "Ab3"; "A3"; "Bb3"; "B3"; "C4"; "C#4"; "D4"; "Eb4"; "E4"; "F4"; "F#4"; "G4"; "Ab4"; "A4"; "Bb4"; "B4"; "C5"];
    ["Bb2"; "B2"; "C3"; "C#3"; "D3"; "Eb3"; "E3"; "F3"; "F#3"; "G3"; "Ab3"; "A3"; "Bb3"; "B3"; "C4"; "C#4"; "D4"; "Eb4"; "E4"; "F4"; "F#4"; "G4"];
    ["F2"; "F#2"; "G2"; "Ab2"; "A2"; "Bb2"; "B2"; "C3"; "C#3"; "D3"; "Eb3"; "E3"; "F3"; "F#3"; "G3"; "Ab3"; "A3"; "Bb3"; "B3"; "C4"; "C#4"; "D4"]
  ].

Definition NOTE_ON := "note_on".

(** A message of a track, as far as the parser reads it: its [type], and
    for a note message its [note] number and its [time]. *)
Record message : Set := { msg_type : string; msg_note : Z; msg_time : Z }.

(** [MIDIParser._midi_to_note]: [MIDI_TO_NOTES[midi_note][0]], on the
    table of [midi.py], which is the one of [tabs.py] item for item. *)
Definition _midi_to_note (midi_note : Z) : res string :=
  letr names := dict_item MIDI_TO_NOTES midi_note in
  list_index names 0.

(** [MIDIParser._on_note]. *)
Definition _on_note (midi_data : list message) : list message :=
  filter (fun x => msg_type x = NOTE_ON) midi_data.

(** [MIDIParser.notes_played]: the list comprehension over [_on_note]. *)
Fixpoint notes_of (msgs : list message) : res (list performed) :=
  match msgs with
  | [] => Ok []
  | m :: msgs' =>
    letr name := _midi_to_note (msg_note m) in
    letr rest := notes_of msgs' in
    Ok ({| note := name; time := msg_time m |} :: rest)
  end.

Definition notes_played (midi_data : list message) : res (list performed) :=
  notes_of (_on_note midi_data).

(** [max(l, key=key)] on a list with first element [best]: the first of
    the elements of greatest key. *)
Fixpoint py_max {A : Type} (key : A → nat) (best : A) (l : list A) : A :=
  match l with
  | [] => best
  | x :: l' =>
    if (key best <? key x)%nat then py_max key x l' else py_max key best l'
  end.

(** [l.count(x)]. *)
Definition py_count `{EqDecision A} (l : list A) (x : A) : nat :=
  length (filter (fun y => y = x) l).

(** The end of [MIDIParser.get_key]: the vote over the results of the six
    analyses of music21, each a list whose first element is a tuple
    [(pitch, mode, coefficient)].  [x[0]] is an [IndexError] on an empty
    result. *)
Definition get_key `{EqDecision P} {C : Type}
    (key_weight krumhansl_shmuckler bellman_budge aarden_essen
       krumhansl_kessler temperley_kostka_payne : list (P * string * C))
    : res (P * string) :=
  let first (x : list (P * string * C)) : res (P * string) :=
    letr x0 := list_index x 0 in Ok (x0.1.1, x0.1.2) in
  letr p1 := first key_weight in
  letr p2 := first krumhansl_shmuckler in
  letr p3 := first bellman_budge in
  letr p4 := first aarden_essen in
  letr p5 := first krumhansl_kessler in
  letr p6 := first temperley_kostka_payne in
  let prediction := [p1; p2; p3; p4; p5; p6] in
  Ok (py_max (py_count prediction) p1 [p2; p3; p4; p5; p6]).

(** ** A stand-in for music21 in the examples *)

(** The pitches of a scale begin with the pitch the scale was built on;
    the examples need no more than that first name. *)
Definition tonic_first : Music21 :=
  {| pitches := fun sc =>
       match sc_pitch sc with
       | PStr s => [s]
       | PObj s o => match str_index s (-1) with
                     | Ok c => if is_digit c then [s] else [s +:+ pretty o]
                     | Raise _ => []
                     end
       end |}.

(** The key of C major on the tonic C4, and notes played one after the
    other, for the examples. *)
Definition c_major : pitch_arg * string := (PStr "C4", "major").

Definition played (names : list string) : list performed :=
  map (fun n => {| note := n; time := 0 |}) names.

(** ** Vocabulary of the properties *)

(** The pitch of row [r] can be played at fret [f] of string [s]: the
    entries that the loops do not skip. *)
Definition reachable (r : list (Z * option Z)) (s f : Z) : Prop :=
  (s, Some f) ∈ r ∧ f ≠ 0.

(** No string plays the pitch of row [r]. *)
Definition unreachable (r : list (Z * option Z)) : Prop :=
  Forall (fun it => truthy it.2 = false) r.

(** Some position of row [r] lies on the scale walk. *)
Definition on_walk (scale_notes : list (Z * Z)) (r : list (Z * option Z)) : Prop :=
  ∃ s f, reachable r s f ∧ (f, s) ∈ scale_notes.

(** The answer [p] for [note] is settled in [cache]: whatever the current
    fret, and whatever is cached for other pitches, the assigner answers
    [p] and leaves the cache as it is. *)
Definition settled (scale_notes : list (Z * Z)) (note : string)
    (p : option Z * option Z) (cache : gmap string (Z * Z)) : Prop :=
  ∀ (cache' : gmap string (Z * Z)) (fret : Z),
    cache' !! note = cache !! note →
    note_nearest_to_fret cache' (Some fret) note scale_notes = (Ok p, cache').

(** Only pitches with no position on the scale walk are cached. *)
Definition cache_sound (scale_notes : list (Z * Z))
    (cache : gmap string (Z * Z)) : Prop :=
  ∀ n p r, cache !! n = Some p → NOTE_TO_STRING !! n = Some r →
           ¬ on_walk scale_notes r.

(** Two names are spellings of one pitch when [MIDI_TO_NOTES] lists them
    under one note number. *)
Definition enharmonic (a b : string) : Prop :=
  ∃ m l, MIDI_TO_NOTES !! m = Some l ∧ a ∈ l ∧ b ∈ l.

(** The triples of one pitch all carry the same string and fret. *)
Definition consistent (to_play : list (string * option Z * option Z)) : Prop :=
  ∀ i j n si fi sj fj, (i < j)%nat →
    to_play !! i = Some (n, si, fi) → to_play !! j = Some (n, sj, fj) →
    (sj, fj) = (si, fi).

(** The positions of list [l] lie in the window of the walk that starts
    at fret [f0] of string [s0]: at most five frets up, on that string or
    a higher-pitched one. *)
Definition walk_window (f0 s0 : Z) (l : list (Z * Z)) : Prop :=
  Forall (fun p => f0 ≤ p.1 ≤ f0 + 5 ∧ 1 ≤ p.2 ≤ s0) l.

(** What [find_start] holds in its variables between two candidates, for
    the row [r] of the first pitch: the initial values, or a start that
    is a reachable position of the row, with its walk. *)
Definition finder_ok (r : list (Z * option Z)) (st : finder) : Prop :=
  st = finder0 ∨
  (1 ≤ max_count st ∧
   reachable r (start_string st) (start_fret st) ∧
   head (start_scale_notes st) = Some (start_fret st, start_string st) ∧
   walk_window (start_fret st) (start_string st) (start_scale_notes st) ∧
   (2 ≤ length (start_scale_notes st) ≤ 9)%nat).

(** One turn of the loop of a walk, for the step [d] read from the table:
    the body of [walk_loop], named for the proofs. *)
Definition walk_turn (steps : list Z) (note_string note_fret d : Z)
    (w : walk) (st : finder) : walk * finder :=
  let fret := w_fret w + d in
  let step := w_step w + 1 in
  let num_notes := w_num_notes w + 1 in
  let note_list := w_note_list w ++ [(fret, w_string w)] in
  let st := if w_shared w
            then {| max_count := max_count st; start_fret := start_fret st;
                    start_string := start_string st;
                    start_scale_notes := note_list |}
            else st in
  let step := if Z.of_nat (length steps) <=? step then 0 else step in
  let '(fret, string) :=
    if note_fret + 3 <? fret
    then (fret - (if w_string w =? 2 then 4 else 5), w_string w - 1)
    else (fret, w_string w) in
  let '(st, shared) :=
    if max_count st <? num_notes
    then ({| max_count := num_notes; start_fret := note_fret;
             start_string := note_string;
             start_scale_notes := note_list |}, true)
    else (st, w_shared w) in
  ({| w_string := string; w_fret := fret; w_num_notes := num_notes;
      w_step := step; w_note_list := note_list; w_shared := shared |}, st).

(** What holds of the variables of a walk at the top of its loop, with
    [span] turns left. *)
Definition walk_invariant (steps : list Z) (r : list (Z * option Z))
    (note_string note_fret : Z) (span : nat) (w : walk) (st : finder) : Prop :=
  0 ≤ w_step w < Z.of_nat (length steps) ∧
  note_fret - 1 ≤ w_fret w ≤ note_fret + 3 ∧
  w_string w ≤ note_string ∧
  head (w_note_list w) = Some (note_fret, note_string) ∧
  walk_window note_fret note_string (w_note_list w) ∧
  ((length (w_note_list w) + span ≤ 9)%nat ∧ 0 ≤ w_num_notes w) ∧
  (if w_shared w
   then start_fret st = note_fret ∧ start_string st = note_string ∧
        start_scale_notes st = w_note_list w ∧
        max_count st = w_num_notes w ∧ 1 ≤ max_count st ∧
        (2 ≤ length (w_note_list w))%nat
   else finder_ok r st ∧ 0 ≤ max_count st).

(** A step table as [SCALE] has them: not empty, of steps of one or two
    frets. *)
Definition SCALE_steps_ok (steps : list Z) : Prop :=
  steps ≠ [] ∧ Forall (fun d => 1 ≤ d ≤ 2) steps.

(** Every cached position is a reachable position of its pitch, or the
    initial values [(999, 999)] for a pitch that no string plays. *)
Definition cache_playable (cache : gmap string (Z * Z)) : Prop :=
  ∀ n p (r : list (Z * option Z)),
    cache !! n = Some p → NOTE_TO_STRING !! n = Some r →
    reachable r p.2 p.1 ∨ (unreachable r ∧ p = (999, 999)).

(** The place that the index [i] has in a list of length [n], when it
    is not out of range: negative indices count from the end. *)
Definition py_pos (n : nat) (i : Z) : nat :=
  Z.to_nat (if i <? 0 then i + Z.of_nat n else i).

(** The string numbers that [render] takes without an [IndexError]:
    [note_string - 1] is an index of the six strings. *)
Definition good_strings (notes_list : list (string * option Z * option Z))
    : Prop :=
  Forall (fun t => ∃ s, t.1.2 = Some s ∧ -5 ≤ s ≤ 6) notes_list.

(** The columns that the notes take: a dash, the digits of the fret and a
    dash for each. *)
Definition tab_width (notes_list : list (string * option Z * option Z)) : Z :=
  foldr (fun t w => 2 + len (str_of t.2) + w) 0 notes_list.

(** A string of the fretboard is empty or begins with a dash. *)
Definition dashed (s : string) : Prop :=
  s = "" ∨ ∃ s', s = String TAB_LINE_CHAR s'.

(** The strings of a list, one after the other. *)
Definition str_concat (l : list string) : string :=
  foldr String.append "" l.

(** The six lines of a block, without the error cases of [block]: the
    names of the strings before the slices. *)
Definition labelled (fretboard : list string) (start stop : Z) : list string :=
  zip_with (fun label s => label +:+ str_slice s start stop)
    ["E"; "A"; "D"; "G"; "B"; "E"] fretboard.

(** The lines of the first [K] blocks of width [bp]: six lines and an
    empty line for each. *)
Definition blocks (fretboard : list string) (bp : Z) (k0 K : nat)
    : list string :=
  concat (map (fun k => labelled fretboard (Z.of_nat k * bp)
                          (Z.of_nat (S k) * bp) ++ [""])
            (seq k0 K)).

(** The slices of the string [s] in the first [K] blocks. *)
Definition slices (s : string) (bp : Z) (K : nat) : list string :=
  map (fun k => str_slice s (Z.of_nat k * bp) (Z.of_nat (S k) * bp)) (seq 0 K).

(** The name that [FRET_NOTES] has for fret [f] of string [s]:
    [FRET_NOTES[s - 1][f - 1]], for a string from 1 and a fret from 1. *)
Definition fret_note (s f : Z) : option string :=
  if (1 <=? s) && (1 <=? f) then
    match FRET_NOTES !! Z.to_nat (s - 1) with
    | Some names => names !! Z.to_nat (f - 1)
    | None => None
    end
  else None.

(** The first position of a row that the loops do not skip. *)
Fixpoint first_reachable (r : list (Z * option Z)) : option (Z * Z) :=
  match r with
  | [] => None
  | (s, e) :: r' =>
    match e with
    | Some f => if truthy e then Some (s, f) else first_reachable r'
    | None => first_reachable r'
    end
  end.

(** Whether the name of the MIDI note [m] is a pitch of [NOTE_TO_STRING]
    that some string plays. *)
Definition playable_midi (m : Z) : bool :=
  match _midi_to_note m with
  | Ok name =>
    match NOTE_TO_STRING !! name with
    | Some r => bool_decide (is_Some (first_reachable r))
    | None => false
    end
  | Raise _ => false
  end.

(** Whether the name of the MIDI note [m] is a pitch of [NOTE_TO_STRING]
    that no string plays. *)
Definition unplayable_midi (m : Z) : bool :=
  match _midi_to_note m with
  | Ok name =>
    match NOTE_TO_STRING !! name with
    | Some r => bool_decide (first_reachable r = None)
    | None => false
    end
  | Raise _ => false
  end.


(** The list in front of which a triple is put, when there is a list. *)
Definition emit_triple (t : string * option Z * option Z)
    (rc : res (list (string * option Z * option Z)) * gmap string (Z * Z))
    : res (list (string * option Z * option Z)) * gmap string (Z * Z) :=
  match rc with
  | (Ok to_play, cache) => (Ok (t :: to_play), cache)
  | (Raise e, cache) => (Raise e, cache)
  end.

(** * Properties *)

(** ** Shape of the tables *)

(** A value found in a dict display is the value of one of its items. *)
Lemma dict_display_lookup {V : Type} (items : list (string * V)) k v :
  dict_display items !! k = Some v → (k, v) ∈ items.
Proof.
  unfold dict_display.
  assert (G : ∀ m : gmap string V,
             foldl (fun m kv => <[kv.1 := kv.2]> m) m items !! k = Some v →
             m !! k = Some v ∨ (k, v) ∈ items).
  { induction items as [|[k' v'] items IH]; intros m Hm; simpl in *.
    - by left.
    - destruct (IH _ Hm) as [Hi|Hi].
      + destruct (decide (k' = k)) as [->|Hne].
        * rewrite lookup_insert_eq in Hi. injection Hi as ->.
          right. left.
        * rewrite lookup_insert_ne in Hi by done. by left.
      + right. by right. }
  intros Hk. destruct (G ∅ Hk) as [Hi|Hi]; [|done].
  by rewrite lookup_empty in Hi.
Qed.

(** Every row of [NOTE_TO_STRING] has the keys 1 to 6, in this order. *)
Lemma NOTE_TO_STRING_keys n (r : list (Z * option Z)) :
  NOTE_TO_STRING !! n = Some r → r.*1 = [1; 2; 3; 4; 5; 6].
Proof.
  intros Hn. apply dict_display_lookup in Hn.
  assert (F : Forall (fun kv : string * list (Z * option Z) =>
                        kv.2.*1 = [1; 2; 3; 4; 5; 6]) NOTE_TO_STRING_items).
  { unfold NOTE_TO_STRING_items. repeat constructor. }
  rewrite Forall_forall in F. exact (F _ Hn).
Qed.

Lemma NOTE_TO_STRING_nonempty n (r : list (Z * option Z)) :
  NOTE_TO_STRING !! n = Some r → ∃ item items, r = item :: items.
Proof.
  intros Hn. apply NOTE_TO_STRING_keys in Hn.
  destruct r as [|item items]; [discriminate | eauto].
Qed.

(** Every step of [SCALE] is one or two frets, and no table is empty. *)
Lemma SCALE_steps m steps :
  SCALE !! m = Some steps →
  steps ≠ [] ∧ Forall (fun d => 1 ≤ d ≤ 2) steps.
Proof.
  intros Hm. apply dict_display_lookup in Hm.
  assert (F : Forall (fun kv : string * list Z =>
                        kv.2 ≠ [] ∧ Forall (fun d => 1 ≤ d ≤ 2) kv.2)
                SCALE_items).
  { unfold SCALE_items. repeat constructor; (discriminate || lia). }
  rewrite Forall_forall in F. exact (F _ Hm).
Qed.

(** Every fret of [NOTE_TO_STRING] is between 1 and 22. *)
Lemma NOTE_TO_STRING_frets n (r : list (Z * option Z)) s f :
  NOTE_TO_STRING !! n = Some r → (s, Some f) ∈ r → 1 ≤ f ≤ 22.
Proof.
  intros Hn Hin. apply dict_display_lookup in Hn.
  assert (F : Forall (fun kv : string * list (Z * option Z) =>
                        Forall (fun it : Z * option Z =>
                                  match it.2 with
                                  | Some f => 1 ≤ f ≤ 22
                                  | None => True
                                  end) kv.2) NOTE_TO_STRING_items).
  { unfold NOTE_TO_STRING_items, mk_row. repeat constructor; lia. }
  rewrite Forall_forall in F. specialize (F _ Hn). cbn [snd] in F.
  rewrite Forall_forall in F. exact (F _ Hin).
Qed.

(** A key that no item has is not in the dict display. *)
Lemma dict_display_lookup_None {V : Type} (items : list (string * V)) k :
  k ∉ items.*1 → dict_display items !! k = None.
Proof.
  intros Hk. destruct (dict_display items !! k) as [v|] eqn:Hv; [|done].
  apply dict_display_lookup in Hv. destruct Hk.
  by apply (list_elem_of_fmap_2 fst) in Hv.
Qed.

(** [SCALE] has the ten mode names and no other. *)
Lemma SCALE_unknown m :
  m ∉ ["major"; "ionian"; "dorian"; "phrygian"; "lydian"; "mixolydian";
       "locrian"; "minor"; "aeolian"; "jazz_minor"] →
  SCALE !! m = None.
Proof. intros Hm. by apply dict_display_lookup_None. Qed.

(** The tables are read by lookup; they are not to be unfolded by [simpl]. *)
#[local] Opaque NOTE_TO_STRING SCALE MIDI_TO_NOTES.

(** ** The scan of one row *)

Section Scan.
Variable scale_notes : list (Z * Z).

Lemma scan_cons cached fret s e items a b d :
  scan cached fret scale_notes ((s, e) :: items) a b d =
  match e with
  | Some nf =>
    if nf =? 0 then scan cached fret scale_notes items a b d
    else if bool_decide ((nf, s) ∈ scale_notes) then Ok (Returned (nf, s))
    else match cached with
         | Some p => Ok (Returned p)
         | None =>
           match fret with
           | None => Raise TypeError
           | Some fr =>
             if Z.abs (nf - fr) <=? d
             then scan cached fret scale_notes items nf s (Z.abs (nf - fr))
             else scan cached fret scale_notes items a b d
           end
         end
  | None => scan cached fret scale_notes items a b d
  end.
Proof. destruct e as [nf|]; simpl; [destruct (nf =? 0)|]; reflexivity. Qed.

Lemma scan_unreachable cached fret items a b d :
  unreachable items →
  scan cached fret scale_notes items a b d = Ok (Finished a b).
Proof.
  induction 1 as [|[s e] items He _ IH]; [done|].
  rewrite scan_cons. destruct e as [nf|]; [|done].
  simpl in He. destruct (nf =? 0); [done | discriminate].
Qed.

(** With a current fret the scan raises nothing. *)
Lemma scan_ok cached fr items a b d :
  ∃ se, scan cached (Some fr) scale_notes items a b d = Ok se.
Proof.
  revert a b d. induction items as [|[s e] items IH]; intros a b d.
  - simpl. eauto.
  - rewrite scan_cons. destruct e as [nf|]; [|done].
    destruct (nf =? 0); [done|].
    destruct (bool_decide _); [eauto|].
    destruct cached; [eauto|].
    destruct (_ <=? _); done.
Qed.

(** An early return does not depend on the current fret. *)
Lemma scan_returned_any cached fr items a b d p :
  scan cached (Some fr) scale_notes items a b d = Ok (Returned p) →
  ∀ fr' a' b' d',
    scan cached (Some fr') scale_notes items a' b' d' = Ok (Returned p).
Proof.
  revert a b d. induction items as [|[s e] items IH]; intros a b d.
  - discriminate.
  - rewrite scan_cons. intros H fr' a' b' d'. rewrite scan_cons.
    destruct e as [nf|]; [|by eapply IH].
    destruct (nf =? 0); [by eapply IH|].
    destruct (bool_decide _); [done|].
    destruct cached; [done|].
    destruct (_ <=? _), (_ <=? _); by eapply IH.
Qed.

(** A scan that runs to its end met either no reachable position, or no
    cached position; in the second case a cached position ends any later
    scan of the row. *)
Lemma scan_finished cached fret items a b d mf ms :
  scan cached fret scale_notes items a b d = Ok (Finished mf ms) →
  (unreachable items ∧ mf = a ∧ ms = b) ∨
  (cached = None ∧
   ∀ p fret' a' b' d',
     scan (Some p) fret' scale_notes items a' b' d' = Ok (Returned p)).
Proof.
  revert a b d. induction items as [|[s e] items IH]; intros a b d.
  - simpl. intros [= <- <-]. left. by split; [constructor|].
  - rewrite scan_cons. destruct e as [nf|].
    + destruct (Z.eqb_spec nf 0) as [->|Hnz].
      * intros H. destruct (IH _ _ _ H) as [(Hu & -> & ->)|[-> Hp]].
        -- left. split; [|done]. by constructor.
        -- right. split; [done|]. intros. rewrite scan_cons. simpl. apply Hp.
      * destruct (bool_decide _) eqn:Hsc; [done|].
        destruct cached; [done|].
        intros _. right. split; [done|].
        intros. rewrite scan_cons.
        destruct (Z.eqb_spec nf 0); [done|]. by rewrite Hsc.
    + intros H. destruct (IH _ _ _ H) as [(Hu & -> & ->)|[-> Hp]].
      * left. split; [|done]. by constructor.
      * right. split; [done|]. intros. rewrite scan_cons. apply Hp.
Qed.

(** A scan that runs to its end met no position of the scale walk. *)
Lemma scan_finished_off_walk cached fret items a b d mf ms :
  scan cached fret scale_notes items a b d = Ok (Finished mf ms) →
  ¬ on_walk scale_notes items.
Proof.
  revert a b d. induction items as [|[s e] items IH]; intros a b d H.
  - intros (s' & f' & [Hin _] & _). by apply elem_of_nil in Hin.
  - rewrite scan_cons in H.
    assert (T : ∀ a b d, scan cached fret scale_notes items a b d
                         = Ok (Finished mf ms) →
                (∀ nf, e = Some nf → nf ≠ 0 → (nf, s) ∉ scale_notes) →
                ¬ on_walk scale_notes ((s, e) :: items)).
    { intros a' b' d' H' Hhd (s' & f' & [Hin Hnz] & Hsc).
      apply elem_of_cons in Hin as [[= -> <-]|Hin].
      - by eapply Hhd.
      - eapply IH; [exact H'|]. by exists s', f'. }
    destruct e as [nf|]; [|by eapply T].
    destruct (Z.eqb_spec nf 0) as [->|Hnz].
    { eapply T; [exact H|]. by intros ? [= <-]. }
    destruct (bool_decide _) eqn:Hsc; [done|].
    apply bool_decide_eq_false in Hsc.
    destruct cached; [done|]. destruct fret as [fr|]; [|done].
    destruct (_ <=? _); (eapply T; [exact H|]); by intros ? [= <-].
Qed.

(** Where an early return comes from: a position of the row on the scale
    walk, or the cache. *)
Lemma scan_returned cached fret items a b d p :
  scan cached fret scale_notes items a b d = Ok (Returned p) →
  (reachable items p.2 p.1 ∧ p ∈ scale_notes) ∨ cached = Some p.
Proof.
  revert a b d. induction items as [|[s e] items IH]; intros a b d H.
  - discriminate.
  - rewrite scan_cons in H.
    assert (T : ∀ a b d, scan cached fret scale_notes items a b d
                         = Ok (Returned p) →
                (reachable ((s, e) :: items) p.2 p.1 ∧ p ∈ scale_notes)
                ∨ cached = Some p).
    { intros a' b' d' H'. destruct (IH _ _ _ H') as [[[Hin Hnz] Hsc]|Hc].
      - left. split; [|done]. split; [by right | done].
      - by right. }
    destruct e as [nf|]; [|by eapply T].
    destruct (Z.eqb_spec nf 0) as [->|Hnz]; [by eapply T|].
    destruct (bool_decide _) eqn:Hsc.
    { apply bool_decide_eq_true in Hsc. injection H as <-. left.
      split; [|done]. split; [by left | done]. }
    destruct cached; [injection H as <-; by right|].
    destruct fret as [fr|]; [|done].
    destruct (_ <=? _); by eapply T.
Qed.

Lemma on_walk_cons s e items :
  on_walk scale_notes ((s, e) :: items) ↔
  (∃ f, e = Some f ∧ f ≠ 0 ∧ (f, s) ∈ scale_notes) ∨ on_walk scale_notes items.
Proof.
  split.
  - intros (s' & f' & [Hin Hnz] & Hsc).
    apply elem_of_cons in Hin as [[= -> <-]|Hin].
    + left. eauto.
    + right. by exists s', f'.
  - intros [(f & -> & Hnz & Hsc)|(s' & f' & [Hin Hnz] & Hsc)].
    + exists s, f. split; [|done]. split; [left | done].
    + exists s', f'. split; [|done]. split; [by right | done].
Qed.

(** Without a cached position, a row that meets the scale walk is
    answered by its first position on the walk. *)
Lemma scan_on_walk fr items a b d :
  on_walk scale_notes items →
  ∃ l1 s f l2,
    items = l1 ++ (s, Some f) :: l2 ∧ f ≠ 0 ∧ (f, s) ∈ scale_notes ∧
    ¬ on_walk scale_notes l1 ∧
    scan None (Some fr) scale_notes items a b d = Ok (Returned (f, s)).
Proof.
  revert a b d. induction items as [|[s e] items IH]; intros a b d Hw.
  - destruct Hw as (s' & f' & [Hin _] & _). by apply elem_of_nil in Hin.
  - rewrite scan_cons.
    assert (T : (∀ f, e = Some f → f ≠ 0 → (f, s) ∉ scale_notes) →
                ∀ a b d, ∃ l1 s0 f l2,
                  (s, e) :: items = l1 ++ (s0, Some f) :: l2 ∧ f ≠ 0 ∧
                  (f, s0) ∈ scale_notes ∧ ¬ on_walk scale_notes l1 ∧
                  scan None (Some fr) scale_notes items a b d
                  = Ok (Returned (f, s0))).
    { intros Hhd a' b' d'.
      apply on_walk_cons in Hw as [(f & -> & Hnz & Hsc)|Hw];
        [by destruct (Hhd f)|].
      destruct (IH a' b' d' Hw) as (l1 & s0 & f & l2 & -> & ? & ? & Hl1 & ?).
      exists ((s, e) :: l1), s0, f, l2. repeat split; try done.
      rewrite on_walk_cons. intros [(f' & -> & ? & ?)|?]; [|done].
      by destruct (Hhd f'). }
    destruct e as [nf|]; [|by apply T].
    destruct (Z.eqb_spec nf 0) as [->|Hnz].
    { apply T. by intros ? [= <-]. }
    destruct (bool_decide _) eqn:Hsc.
    + apply bool_decide_eq_true in Hsc.
      exists [], s, nf, items. repeat split; try done.
      intros (s' & f' & [Hin _] & _). by apply elem_of_nil in Hin.
    + apply bool_decide_eq_false in Hsc.
      destruct (_ <=? _); apply T; by intros ? [= <-].
Qed.

Lemma reachable_cons s e items s' f' :
  reachable ((s, e) :: items) s' f' ↔
  (s' = s ∧ e = Some f' ∧ f' ≠ 0) ∨ reachable items s' f'.
Proof.
  unfold reachable. rewrite elem_of_cons. split.
  - intros [[[= -> <-]|Hin] Hnz]; [left | right]; done.
  - intros [(-> & -> & Hnz)|[Hin Hnz]]; (split; [|done]); [by left | by right].
Qed.

(** The proximity scan: the answer is at the least distance from the
    current fret among the reachable positions within the initial bound,
    and of several at that distance it is the last one of the row. *)
Lemma scan_nearest fr items a b d mf ms :
  scan None (Some fr) scale_notes items a b d = Ok (Finished mf ms) →
  (mf = a ∧ ms = b ∧ ∀ s f, reachable items s f → d < Z.abs (f - fr)) ∨
  (∃ l1 l2,
     items = l1 ++ (ms, Some mf) :: l2 ∧ mf ≠ 0 ∧ Z.abs (mf - fr) ≤ d ∧
     (∀ s f, reachable l1 s f → Z.abs (mf - fr) ≤ Z.abs (f - fr)) ∧
     (∀ s f, reachable l2 s f → Z.abs (mf - fr) < Z.abs (f - fr))).
Proof.
  revert a b d. induction items as [|[s e] items IH]; intros a b d.
  - simpl. intros [= <- <-]. left. repeat split.
    intros s f [Hin _]. by apply elem_of_nil in Hin.
  - rewrite scan_cons.
    assert (Skip : (∀ f, e = Some f → f ≠ 0 → d < Z.abs (f - fr)) →
              scan None (Some fr) scale_notes items a b d
              = Ok (Finished mf ms) →
              (mf = a ∧ ms = b ∧
               ∀ s0 f, reachable ((s, e) :: items) s0 f → d < Z.abs (f - fr)) ∨
              (∃ l1 l2,
                 (s, e) :: items = l1 ++ (ms, Some mf) :: l2 ∧ mf ≠ 0 ∧
                 Z.abs (mf - fr) ≤ d ∧
                 (∀ s f, reachable l1 s f → Z.abs (mf - fr) ≤ Z.abs (f - fr)) ∧
                 (∀ s f, reachable l2 s f → Z.abs (mf - fr) < Z.abs (f - fr)))).
    { intros Hhd H.
      destruct (IH _ _ _ H) as [(-> & -> & Hall)|(l1 & l2 & -> & ? & ? & Hl1 & Hl2)].
      - left. repeat split. intros s0 f.
        rewrite reachable_cons. intros [(_ & -> & ?)|?]; [by apply Hhd | by eapply Hall].
      - right. exists ((s, e) :: l1), l2. repeat split; try done.
        intros s0 f. rewrite reachable_cons.
        intros [(_ & -> & ?)|?]; [|by eapply Hl1].
        specialize (Hhd f eq_refl). lia. }
    destruct e as [nf|]; [|by apply Skip].
    destruct (Z.eqb_spec nf 0) as [->|Hnz].
    { apply Skip. by intros ? [= <-]. }
    destruct (bool_decide _); [done|].
    destruct (Z.leb_spec (Z.abs (nf - fr)) d) as [Hle|Hgt].
    + intros H. right.
      destruct (IH _ _ _ H) as [(-> & -> & Hall)|(l1 & l2 & -> & ? & ? & Hl1 & Hl2)].
      * exists [], items. repeat split; try done.
        intros s0 f [Hin _]. by apply elem_of_nil in Hin.
      * exists ((s, Some nf) :: l1), l2. repeat split; try done; [lia|].
        intros s0 f. rewrite reachable_cons.
        intros [(_ & [= <-] & ?)|?]; [done | by eapply Hl1].
    + apply Skip. intros ? [= <-] _. lia.
Qed.
End Scan.

(** ** One call of the assigner *)

Lemma note_nearest_to_fret_eq cache fret n scale_notes (r : list (Z * option Z)) :
  NOTE_TO_STRING !! n = Some r →
  note_nearest_to_fret cache fret n scale_notes =
  match scan (cache !! n) fret scale_notes r 999 999 999 with
  | Raise e => (Raise e, cache)
  | Ok (Returned p) => (Ok (Some p.1, Some p.2), cache)
  | Ok (Finished a b) => (Ok (Some a, Some b), <[n := (a, b)]> cache)
  end.
Proof.
  intros Hn. unfold note_nearest_to_fret. rewrite Hn.
  by destruct (NOTE_TO_STRING_nonempty _ _ Hn) as (item & items & ->).
Qed.

(** With a current fret, a pitch of the table gets a fret and a string. *)
Lemma note_nearest_to_fret_some cache fr n scale_notes (r : list (Z * option Z)) :
  NOTE_TO_STRING !! n = Some r →
  ∃ f s cache',
    note_nearest_to_fret cache (Some fr) n scale_notes
    = (Ok (Some f, Some s), cache').
Proof.
  intros Hn. rewrite (note_nearest_to_fret_eq _ _ _ _ _ Hn).
  destruct (scan_ok scale_notes (cache !! n) fr r 999 999 999) as [[p|a b] ->];
    eauto.
Qed.

(** A call writes the cache under the pitch it was asked, nowhere else. *)
Lemma note_nearest_to_fret_frame cache fret n scale_notes res cache' m :
  note_nearest_to_fret cache fret n scale_notes = (res, cache') →
  m ≠ n → cache' !! m = cache !! m.
Proof.
  unfold note_nearest_to_fret. intros H Hne.
  destruct (NOTE_TO_STRING !! n) as [[|item items]|]; try by injection H as _ <-.
  destruct (scan _ _ _ _ _ _ _) as [[p|a b]|e]; injection H as _ <-; try done.
  by rewrite lookup_insert_ne.
Qed.

(** The answer of a call is settled in the cache the call leaves. *)
Lemma note_nearest_to_fret_settles cache fr n scale_notes
    (r : list (Z * option Z)) p cache' :
  NOTE_TO_STRING !! n = Some r →
  note_nearest_to_fret cache (Some fr) n scale_notes = (Ok p, cache') →
  settled scale_notes n p cache'.
Proof.
  intros Hn H c2 fr2 Hc2.
  rewrite (note_nearest_to_fret_eq _ _ _ _ _ Hn) in H.
  rewrite (note_nearest_to_fret_eq _ _ _ _ _ Hn).
  destruct (scan _ _ _ _ _ _ _) as [[q|a b]|e] eqn:Hscan; [| |done].
  - injection H as <- <-. rewrite Hc2.
    by rewrite (scan_returned_any _ _ _ _ _ _ _ _ Hscan fr2 999 999 999).
  - injection H as <- <-. rewrite lookup_insert_eq in Hc2. rewrite Hc2.
    destruct (scan_finished _ _ _ _ _ _ _ _ _ Hscan) as [(Hu & -> & ->)|[_ Hp]].
    + rewrite scan_unreachable by done. by rewrite insert_id.
    + by rewrite Hp.
Qed.

(** A settled answer stays settled through calls for any pitch. *)
Lemma settled_step scale_notes n p cache fr m q cache' :
  settled scale_notes n p cache →
  note_nearest_to_fret cache (Some fr) m scale_notes = (q, cache') →
  settled scale_notes n p cache'.
Proof.
  intros Hs H. destruct (decide (m = n)) as [->|Hne].
  - rewrite (Hs cache fr eq_refl) in H. by injection H as _ <-.
  - intros c2 fr2 Hc2. apply Hs. rewrite Hc2.
    eapply note_nearest_to_fret_frame; [exact H | done].
Qed.

(** A call keeps the cache sound. *)
Lemma note_nearest_to_fret_sound cache fret n scale_notes res cache' :
  cache_sound scale_notes cache →
  note_nearest_to_fret cache fret n scale_notes = (res, cache') →
  cache_sound scale_notes cache'.
Proof.
  unfold note_nearest_to_fret. intros Hs H.
  destruct (NOTE_TO_STRING !! n) as [[|item items]|] eqn:Hn;
    try by injection H as _ <-.
  destruct (scan _ _ _ _ _ _ _) as [[p|a b]|e] eqn:Hscan;
    injection H as _ <-; try done.
  intros m q r Hm Hr. destruct (decide (n = m)) as [->|Hne].
  - rewrite Hn in Hr. injection Hr as <-.
    by eapply scan_finished_off_walk.
  - rewrite lookup_insert_ne in Hm by done. by eapply Hs.
Qed.

(** With a sound cache, a pitch that has a position on the scale walk gets
    the first such position of its row, and the cache is not written. *)
Lemma note_nearest_to_fret_on_walk cache fr n scale_notes
    (r : list (Z * option Z)) :
  cache_sound scale_notes cache →
  NOTE_TO_STRING !! n = Some r →
  on_walk scale_notes r →
  ∃ l1 s f l2,
    r = l1 ++ (s, Some f) :: l2 ∧ f ≠ 0 ∧ (f, s) ∈ scale_notes ∧
    ¬ on_walk scale_notes l1 ∧
    note_nearest_to_fret cache (Some fr) n scale_notes
    = (Ok (Some f, Some s), cache).
Proof.
  intros Hs Hn Hw. rewrite (note_nearest_to_fret_eq _ _ _ _ _ Hn).
  destruct (cache !! n) as [p|] eqn:Hc; [by destruct (Hs _ _ _ Hc Hn)|].
  destruct (scan_on_walk scale_notes fr r 999 999 999 Hw)
    as (l1 & s & f & l2 & Hr & Hnz & Hsc & Hl1 & ->).
  exists l1, s, f, l2. repeat split; assumption || reflexivity.
Qed.

(** ** The loop over the performed notes *)

Lemma assign_notes_dropped scale_notes n ns fret cache :
  NOTE_TO_STRING !! note n = None →
  assign_notes scale_notes (n :: ns) fret cache
  = assign_notes scale_notes ns fret cache.
Proof. intros Hn. cbn [assign_notes]. by rewrite Hn. Qed.

Lemma assign_notes_retained scale_notes n ns fret cache
    (r : list (Z * option Z)) f s cache' :
  NOTE_TO_STRING !! note n = Some r →
  note_nearest_to_fret cache fret (note n) scale_notes = (Ok (f, s), cache') →
  assign_notes scale_notes (n :: ns) fret cache
  = emit_triple (note n, s, f) (assign_notes scale_notes ns f cache').
Proof.
  intros Hn H. cbn [assign_notes]. rewrite Hn, H. unfold emit_triple.
  by destruct (assign_notes _ _ _ _) as [[?|?] ?].
Qed.

(** What a turn of the loop did, from what the loop returned. *)
Lemma assign_notes_inv scale_notes n ns fr cache to_play cache' :
  assign_notes scale_notes (n :: ns) (Some fr) cache = (Ok to_play, cache') →
  (NOTE_TO_STRING !! note n = None ∧
   assign_notes scale_notes ns (Some fr) cache = (Ok to_play, cache')) ∨
  (∃ (r : list (Z * option Z)) f s cache1 to_play',
     NOTE_TO_STRING !! note n = Some r ∧
     note_nearest_to_fret cache (Some fr) (note n) scale_notes
     = (Ok (Some f, Some s), cache1) ∧
     assign_notes scale_notes ns (Some f) cache1 = (Ok to_play', cache') ∧
     to_play = (note n, Some s, Some f) :: to_play').
Proof.
  intros H. destruct (NOTE_TO_STRING !! note n) as [r|] eqn:Hn.
  - right.
    destruct (note_nearest_to_fret_some cache fr (note n) scale_notes r Hn)
      as (f & s & cache1 & Hnn).
    rewrite (assign_notes_retained _ _ _ _ _ _ _ _ _ Hn Hnn) in H.
    unfold emit_triple in H.
    destruct (assign_notes _ _ _ _) as [[to_play'|e] c] eqn:Hrest; [|done].
    injection H as <- <-. exists r, f, s, cache1, to_play'.
    repeat split; assumption || reflexivity.
  - left. by rewrite assign_notes_dropped in H.
Qed.

(** Started with a current fret, the loop raises nothing. *)
Lemma assign_notes_ok scale_notes ns fr cache :
  ∃ to_play cache',
    assign_notes scale_notes ns (Some fr) cache = (Ok to_play, cache').
Proof.
  revert fr cache. induction ns as [|n ns IH]; intros fr cache.
  - simpl. eauto.
  - destruct (NOTE_TO_STRING !! note n) as [r|] eqn:Hn.
    + destruct (note_nearest_to_fret_some cache fr (note n) scale_notes r Hn)
        as (f & s & cache1 & Hnn).
      rewrite (assign_notes_retained _ _ _ _ _ _ _ _ _ Hn Hnn).
      destruct (IH f cache1) as (to_play & cache' & ->). simpl. eauto.
    + rewrite assign_notes_dropped by done. apply IH.
Qed.

(** A settled answer is the one every later triple of the pitch carries. *)
Lemma assign_notes_settled scale_notes n p ns fr cache to_play cache' :
  settled scale_notes n p cache →
  assign_notes scale_notes ns (Some fr) cache = (Ok to_play, cache') →
  settled scale_notes n p cache' ∧
  ∀ s f, (n, s, f) ∈ to_play → (f, s) = p.
Proof.
  revert fr cache to_play. induction ns as [|m ns IH]; intros fr cache to_play Hs H.
  - simpl in H. injection H as <- <-. split; [done|].
    intros s f Hin. by apply elem_of_nil in Hin.
  - apply assign_notes_inv in H
      as [[Hm H]|(r & f & s & cache1 & to_play' & Hm & Hnn & H & ->)].
    + by eapply IH.
    + pose proof (settled_step _ _ _ _ _ _ _ _ Hs Hnn) as Hs1.
      destruct (IH _ _ _ Hs1 H) as [Hs' Hall]. split; [done|].
      intros s0 f0 [[= Hmn -> ->]|Hin]%elem_of_cons; [|by apply Hall].
      rewrite <- Hmn in Hnn. rewrite (Hs cache fr eq_refl) in Hnn.
      by injection Hnn as <- _.
Qed.

(** Every triple of the result is settled in the cache left behind. *)
Lemma assign_notes_emitted_settled scale_notes ns fr cache to_play cache' :
  assign_notes scale_notes ns (Some fr) cache = (Ok to_play, cache') →
  ∀ n s f, (n, s, f) ∈ to_play → settled scale_notes n (f, s) cache'.
Proof.
  revert fr cache to_play. induction ns as [|m ns IH]; intros fr cache to_play H.
  - simpl in H. injection H as <- <-. intros n s f Hin.
    by apply elem_of_nil in Hin.
  - apply assign_notes_inv in H
      as [[Hm H]|(r & f & s & cache1 & to_play' & Hm & Hnn & H & ->)].
    + by eapply IH.
    + intros n0 s0 f0 [[= -> -> ->]|Hin]%elem_of_cons; [|by eapply IH].
      pose proof (note_nearest_to_fret_settles _ _ _ _ _ _ _ Hm Hnn) as Hs1.
      by destruct (assign_notes_settled _ _ _ _ _ _ _ _ Hs1 H).
Qed.

Lemma assign_notes_consistent scale_notes ns fr cache to_play cache' :
  assign_notes scale_notes ns (Some fr) cache = (Ok to_play, cache') →
  consistent to_play.
Proof.
  revert fr cache to_play. induction ns as [|m ns IH]; intros fr cache to_play H.
  - simpl in H. injection H as <- <-. intros i j n si fi sj fj _ Hi.
    by rewrite lookup_nil in Hi.
  - apply assign_notes_inv in H
      as [[Hm H]|(r & f & s & cache1 & to_play' & Hm & Hnn & H & ->)].
    + by eapply IH.
    + intros i j n si fi sj fj Hij Hi Hj.
      destruct j as [|j]; [lia|]. simpl in Hj.
      destruct i as [|i]; simpl in Hi.
      * injection Hi as <- <- <-.
        pose proof (note_nearest_to_fret_settles _ _ _ _ _ _ _ Hm Hnn) as Hs1.
        destruct (assign_notes_settled _ _ _ _ _ _ _ _ Hs1 H) as [_ Hall].
        apply list_elem_of_lookup_2 in Hj. apply Hall in Hj.
        by injection Hj as -> ->.
      * eapply (IH _ _ _ H i j); [lia | done | done].
Qed.

(** When every triple of a run is settled in a cache, the run repeats
    from that cache, whatever the fret it starts at. *)
Lemma assign_notes_replay scale_notes ns fr cache to_play cache' :
  assign_notes scale_notes ns (Some fr) cache = (Ok to_play, cache') →
  ∀ (c2 : gmap string (Z * Z)) fr2,
    (∀ n s f, (n, s, f) ∈ to_play → settled scale_notes n (f, s) c2) →
    assign_notes scale_notes ns (Some fr2) c2 = (Ok to_play, c2).
Proof.
  revert fr cache to_play. induction ns as [|m ns IH]; intros fr cache to_play H c2 fr2 Hall.
  - simpl in H. by injection H as <- <-.
  - apply assign_notes_inv in H
      as [[Hm H]|(r & f & s & cache1 & to_play' & Hm & Hnn & H & ->)].
    + rewrite assign_notes_dropped by done. by eapply IH.
    + assert (Hnn2 : note_nearest_to_fret c2 (Some fr2) (note m) scale_notes
                     = (Ok (Some f, Some s), c2)).
      { apply (Hall (note m) (Some s) (Some f)); [left | done]. }
      rewrite (assign_notes_retained _ _ _ _ _ _ _ _ _ Hm Hnn2).
      rewrite (IH _ _ _ H c2 f); [done|].
      intros n0 s0 f0 Hin. apply Hall. by right.
Qed.

(** From a sound cache, every pitch that has a position on the scale walk
    is played at the first such position of its row. *)
Lemma assign_notes_on_walk scale_notes ns fr cache to_play cache' :
  cache_sound scale_notes cache →
  assign_notes scale_notes ns (Some fr) cache = (Ok to_play, cache') →
  cache_sound scale_notes cache' ∧
  ∀ n s f (r : list (Z * option Z)),
    (n, s, f) ∈ to_play → NOTE_TO_STRING !! n = Some r →
    on_walk scale_notes r →
    ∃ l1 sz fz l2,
      r = l1 ++ (sz, Some fz) :: l2 ∧ s = Some sz ∧ f = Some fz ∧ fz ≠ 0 ∧
      (fz, sz) ∈ scale_notes ∧ ¬ on_walk scale_notes l1.
Proof.
  revert fr cache to_play. induction ns as [|m ns IH]; intros fr cache to_play Hs H.
  - simpl in H. injection H as <- <-. split; [done|].
    intros n s f r Hin. by apply elem_of_nil in Hin.
  - apply assign_notes_inv in H
      as [[Hm H]|(r & f & s & cache1 & to_play' & Hm & Hnn & H & ->)].
    + by eapply IH.
    + pose proof (note_nearest_to_fret_sound _ _ _ _ _ _ Hs Hnn) as Hs1.
      destruct (IH _ _ _ Hs1 H) as [Hs' Hall]. split; [done|].
      intros n0 s0 f0 r0 [[= -> -> ->]|Hin]%elem_of_cons Hr0 Hw;
        [|by eapply Hall].
      rewrite Hm in Hr0. injection Hr0 as <-.
      destruct (note_nearest_to_fret_on_walk cache fr (note m) scale_notes r
                  Hs Hm Hw) as (l1 & sz & fz & l2 & Hr & Hnz & Hsc & Hl1 & Hnn').
      rewrite Hnn' in Hnn. injection Hnn as <- <- _.
      exists l1, sz, fz, l2. repeat split; assumption || reflexivity.
Qed.

(** ** The start-position finder *)

Lemma candidates_unreachable steps st (r : list (Z * option Z)) :
  unreachable r → candidates steps st r = Ok st.
Proof.
  induction 1 as [|[s e] r He _ IH]; [done|].
  cbn [candidates candidate]. destruct e as [f|]; [|exact IH].
  cbn [snd] in He. rewrite He. exact IH.
Qed.

(** [find_start] does not read the cache. *)
Lemma find_start_cache `{Music21} t cache :
  find_start (set_notes_cache t cache) = find_start t.
Proof. by destruct t as [ns [p st] c]. Qed.

(** C1, as amended.  There is no [NoPlayablePosition] condition: when the
    first pitch of the scale is missing from [NOTE_TO_STRING] the lookup
    raises [KeyError]; when it is in the table with no fret on any of the
    six strings, [find_start] returns normally, with start fret 0, start
    string 0 and an empty scale walk. *)
Theorem find_start_without_position `{Music21} t pitch scale_type fixed steps
    first name :
  key t = (pitch, scale_type) →
  _fix_note_name pitch = Ok fixed →
  SCALE !! scale_type = Some steps →
  list_index (pitches (_get_scale t)) 0 = Ok first →
  _fix_note_name (PStr first) = Ok name →
  (NOTE_TO_STRING !! name = None → find_start t = Raise KeyError) ∧
  (∀ r : list (Z * option Z),
     NOTE_TO_STRING !! name = Some r → unreachable r →
     find_start t = Ok (0, 0, [])).
Proof.
  intros Hkey Hfix Hsteps Hfirst Hname.
  unfold find_start, dict_item. rewrite Hkey, Hfix, Hsteps. cbn [res_bind].
  rewrite Hfirst. cbn [res_bind]. rewrite Hname. cbn [res_bind].
  split.
  - by intros ->.
  - intros r -> Hr. cbn [res_bind].
    by rewrite candidates_unreachable.
Qed.

Lemma find_start_without_position_witness :
  @find_start tonic_first (Tabs_init [] (PStr "C#2", "major")) = Ok (0, 0, []) ∧
  @find_start tonic_first (Tabs_init [] (PStr "C2", "major")) = Raise KeyError.
Proof.
  split.
  - refine (proj2 (find_start_without_position (H := tonic_first)
              (Tabs_init [] (PStr "C#2", "major")) (PStr "C#2") "major" "C#2"
              [2; 2; 1; 2; 2; 2; 1] "C#2" "C#2" _ _ _ _ _)
              (mk_row None None None None None None) _ _);
      try (vm_compute; reflexivity).
    repeat constructor.
  - refine (proj1 (find_start_without_position (H := tonic_first)
              (Tabs_init [] (PStr "C2", "major")) (PStr "C2") "major" "C2"
              [2; 2; 1; 2; 2; 2; 1] "C2" "C2" _ _ _ _ _) _);
      vm_compute; reflexivity.
Defined.

(** C1, as stated, fails: C#2 is in the table with no fret on any string,
    and [find_start] on a key of tonic C#2 returns normally. *)
Lemma find_start_unreachable_tonic_returns :
  NOTE_TO_STRING !! "C#2" = Some (mk_row None None None None None None) ∧
  @find_start tonic_first (Tabs_init [] (PStr "C#2", "major")) = Ok (0, 0, []).
Proof. split; vm_compute; reflexivity. Qed.

(** ** The scale generator *)

(** The modes that [_get_scale] tells apart get the class of their name. *)
Lemma get_scale_known ns p :
  sc_class (_get_scale (Tabs_init ns (p, "major"))) = MajorScale ∧
  sc_class (_get_scale (Tabs_init ns (p, "ionian"))) = MajorScale ∧
  sc_class (_get_scale (Tabs_init ns (p, "minor"))) = MinorScale ∧
  sc_class (_get_scale (Tabs_init ns (p, "aeolian"))) = MinorScale ∧
  sc_class (_get_scale (Tabs_init ns (p, "dorian"))) = DorianScale ∧
  sc_class (_get_scale (Tabs_init ns (p, "phrygian"))) = PhrygianScale ∧
  sc_class (_get_scale (Tabs_init ns (p, "lydian"))) = LydianScale ∧
  sc_class (_get_scale (Tabs_init ns (p, "locrian"))) = LocrianScale.
Proof. repeat split. Qed.

(** Every other mode name gets the major scale. *)
Lemma get_scale_fallback ns p scale_type :
  scale_type ∉ [MAJOR; IONIAN; MINOR; AEOLIAN; DORIAN; PHRYGIAN; LYDIAN; LOCRIAN] →
  _get_scale (Tabs_init ns (p, scale_type))
  = {| sc_class := MajorScale; sc_pitch := p |}.
Proof.
  intros Hn. unfold _get_scale. cbn [key Tabs_init].
  repeat (apply not_elem_of_cons in Hn as [? Hn]).
  by rewrite !bool_decide_eq_false_2
    by (rewrite ?elem_of_cons, ?elem_of_nil; tauto).
Qed.

(** C6: the code goes against the claim.  [SCALE] has a step table of its
    own for mixolydian and for jazz_minor, but [_get_scale] has no branch
    for them: both get the major scale. *)
Theorem get_scale_misses_modes ns p :
  _get_scale (Tabs_init ns (p, "mixolydian"))
  = {| sc_class := MajorScale; sc_pitch := p |} ∧
  _get_scale (Tabs_init ns (p, JAZZ_MINOR))
  = {| sc_class := MajorScale; sc_pitch := p |} ∧
  SCALE !! "major" = Some [2; 2; 1; 2; 2; 2; 1] ∧
  SCALE !! "mixolydian" = Some [2; 2; 1; 2; 2; 1; 2] ∧
  SCALE !! JAZZ_MINOR = Some [2; 1; 2; 2; 2; 2; 1].
Proof. repeat split; vm_compute; reflexivity. Qed.

(** ** The fretboard map *)

(** C8: the code goes against the claim.  F#4 and Gb4 are the two names of
    MIDI note 66; the table has a row for F#4 and none for Gb4. *)
Theorem enharmonic_spelling_missing :
  enharmonic "F#4" "Gb4" ∧
  NOTE_TO_STRING !! "F#4"
  = Some (mk_row (Some 2) (Some 7) (Some 11) (Some 16) (Some 21) None) ∧
  NOTE_TO_STRING !! "Gb4" = None.
Proof.
  split; [|split; vm_compute; reflexivity].
  exists 66, ["F#4"; "Gb4"]. split; [vm_compute; reflexivity|].
  split; [left | right; left].
Qed.

(** The spellings that do agree: the table has both names of G#4. *)
Lemma enharmonic_spelling_present :
  enharmonic "G#4" "Ab4" ∧ NOTE_TO_STRING !! "G#4" = NOTE_TO_STRING !! "Ab4".
Proof.
  split; [|vm_compute; reflexivity].
  exists 68, ["G#4"; "Ab4"]. split; [vm_compute; reflexivity|].
  split; [left | right; left].
Qed.

(** ** The note assigner, one note at a time *)

(** C10.  A pitch that is in the table with no fret on any string is kept:
    the assigner answers the initial values [(999, 999)] of its search
    without raising, whatever the current fret, the triple
    [(pitch, 999, 999)] is put in the result, and the loop goes on with
    999 as the current fret. *)
Theorem unreachable_pitch_sentinel scale_notes n ns fret cache
    (r : list (Z * option Z)) :
  NOTE_TO_STRING !! note n = Some r →
  unreachable r →
  note_nearest_to_fret cache fret (note n) scale_notes
  = (Ok (Some 999, Some 999), <[note n := (999, 999)]> cache) ∧
  assign_notes scale_notes (n :: ns) fret cache
  = emit_triple (note n, Some 999, Some 999)
      (assign_notes scale_notes ns (Some 999) (<[note n := (999, 999)]> cache)).
Proof.
  intros Hn Hr.
  assert (Hnn : note_nearest_to_fret cache fret (note n) scale_notes
                = (Ok (Some 999, Some 999), <[note n := (999, 999)]> cache)).
  { rewrite (note_nearest_to_fret_eq _ _ _ _ _ Hn).
    by rewrite scan_unreachable. }
  split; [done|]. by apply (assign_notes_retained _ _ _ _ _ r).
Qed.

Lemma unreachable_pitch_sentinel_witness :
  assign_notes [] (played ["C#2"; "F2"]) (Some 5) ∅
  = emit_triple ("C#2", Some 999, Some 999)
      (assign_notes [] (played ["F2"]) (Some 999) (<["C#2" := (999, 999)]> ∅)).
Proof.
  refine (proj2 (unreachable_pitch_sentinel [] {| note := "C#2"; time := 0 |}
                   (played ["F2"]) (Some 5) ∅
                   (mk_row None None None None None None) _ _)).
  - vm_compute; reflexivity.
  - repeat constructor.
Defined.

(** C5, as amended.  For a pitch of the table the assigner answers a fret
    and a string, the triple is put in the result and the loop goes on
    with the answered fret as the current fret.  The call writes the cache
    under the pitch alone, or not at all.  An answer that is a position of
    the pitch on the scale walk is not recorded: that call leaves the
    cache as it was.  Every other answer, chosen by the distance to the
    current fret or taken from the cache, is in the cache under the pitch
    after the call. *)
Theorem assigner_records scale_notes n ns fr cache (r : list (Z * option Z)) :
  NOTE_TO_STRING !! note n = Some r →
  ∃ f s cache',
    note_nearest_to_fret cache (Some fr) (note n) scale_notes
    = (Ok (Some f, Some s), cache') ∧
    assign_notes scale_notes (n :: ns) (Some fr) cache
    = emit_triple (note n, Some s, Some f)
        (assign_notes scale_notes ns (Some f) cache') ∧
    (cache' = cache ∨ cache' = <[note n := (f, s)]> cache) ∧
    (reachable r s f → (f, s) ∈ scale_notes → cache' = cache) ∧
    (¬ (reachable r s f ∧ (f, s) ∈ scale_notes) →
     cache' !! note n = Some (f, s)).
Proof.
  intros Hn.
  destruct (note_nearest_to_fret_some cache fr (note n) scale_notes r Hn)
    as (f & s & cache' & Hnn).
  exists f, s, cache'. split; [done|].
  split; [by apply (assign_notes_retained _ _ _ _ _ r)|].
  rewrite (note_nearest_to_fret_eq _ _ _ _ _ Hn) in Hnn.
  destruct (scan _ _ _ _ _ _ _) as [[p|a b]|e] eqn:Hscan; [| |done].
  - injection Hnn as <- <- <-. split; [by left|]. split; [done|].
    intros Hoff.
    destruct (scan_returned _ _ _ _ _ _ _ _ Hscan) as [Hon|Hc].
    + destruct p. by destruct Hoff.
    + destruct p. exact Hc.
  - injection Hnn as <- <- <-. split; [by right|]. split.
    + intros Hre Hsc.
      destruct (scan_finished_off_walk _ _ _ _ _ _ _ _ _ Hscan).
      by exists b, a.
    + intros _. apply lookup_insert_eq.
Qed.

Lemma assigner_records_witness :
  ∃ f s cache',
    note_nearest_to_fret ∅ (Some 0) "C4"
      [(5, 3); (7, 3); (9, 3); (5, 2); (7, 2); (9, 2); (7, 1); (8, 1); (10, 1)]
    = (Ok (Some f, Some s), cache') ∧
    assign_notes
      [(5, 3); (7, 3); (9, 3); (5, 2); (7, 2); (9, 2); (7, 1); (8, 1); (10, 1)]
      (played ["C4"]) (Some 0) ∅
    = emit_triple ("C4", Some s, Some f)
        (assign_notes
           [(5, 3); (7, 3); (9, 3); (5, 2); (7, 2); (9, 2); (7, 1); (8, 1);
            (10, 1)]
           [] (Some f) cache') ∧
    (cache' = ∅ ∨ cache' = <["C4" := (f, s)]> ∅) ∧
    (reachable (mk_row None (Some 1) (Some 5) (Some 10) (Some 15) (Some 20))
       s f →
     (f, s) ∈ [(5, 3); (7, 3); (9, 3); (5, 2); (7, 2); (9, 2); (7, 1); (8, 1);
               (10, 1)] →
     cache' = ∅) ∧
    (¬ (reachable (mk_row None (Some 1) (Some 5) (Some 10) (Some 15) (Some 20))
          s f ∧
        (f, s) ∈ [(5, 3); (7, 3); (9, 3); (5, 2); (7, 2); (9, 2); (7, 1);
                  (8, 1); (10, 1)]) →
     cache' !! "C4" = Some (f, s)).
Proof.
  refine (assigner_records
            [(5, 3); (7, 3); (9, 3); (5, 2); (7, 2); (9, 2); (7, 1); (8, 1);
             (10, 1)]
            {| note := "C4"; time := 0 |} [] 0 ∅
            (mk_row None (Some 1) (Some 5) (Some 10) (Some 15) (Some 20)) _).
  vm_compute; reflexivity.
Defined.

(** C5, as stated, fails: with the key of C major, C4 is answered at
    fret 5 of string 3, which is on the scale walk, and after the run the
    cache has no entry for C4. *)
Lemma scale_walk_answer_not_cached :
  (@generate_notes tonic_first (Tabs_init (played ["C4"]) c_major)).1
  = Ok [("C4", Some 3, Some 5)] ∧
  notes_cache (@generate_notes tonic_first (Tabs_init (played ["C4"]) c_major)).2
    !! "C4" = None.
Proof. split; vm_compute; reflexivity. Qed.

(** ** Order of the strings in a row *)

(** In a row of the table, what comes before an item has a lower string
    number and what comes after it a higher one. *)
Lemma row_split_order (r l1 l2 : list (Z * option Z)) s e :
  r.*1 = [1; 2; 3; 4; 5; 6] →
  r = l1 ++ (s, e) :: l2 →
  (∀ x, x ∈ l1 → x.1 < s) ∧ (∀ x, x ∈ l2 → s < x.1).
Proof.
  intros Hk ->.
  assert (S : StronglySorted Z.lt ((l1 ++ (s, e) :: l2).*1)).
  { rewrite Hk. repeat constructor; lia. }
  rewrite fmap_app, fmap_cons in S. cbn [fst] in S.
  apply StronglySorted_app in S as (H12 & _ & S2).
  apply StronglySorted_cons in S2 as [F2 _]. rewrite Forall_forall in F2.
  split; intros x Hx.
  - apply H12; [by apply list_elem_of_fmap_2 | left].
  - apply F2. by apply list_elem_of_fmap_2.
Qed.

Lemma reachable_app (l1 l2 : list (Z * option Z)) s e s' f' :
  reachable (l1 ++ (s, e) :: l2) s' f' ↔
  reachable l1 s' f' ∨ (s' = s ∧ e = Some f' ∧ f' ≠ 0) ∨ reachable l2 s' f'.
Proof.
  unfold reachable. rewrite elem_of_app, elem_of_cons. split.
  - intros [[Hin|[[= -> <-]|Hin]] Hnz]; eauto.
  - intros [[Hin Hnz]|[(-> & -> & Hnz)|[Hin Hnz]]]; eauto.
Qed.

(** C7, as amended.  In the proximity branch (nothing cached for the
    pitch, none of its positions on the scale walk, and one of them within
    the initial bound 999 of the current fret) the answer is a reachable
    position at the least distance from the current fret, and of several
    positions at that distance it is the last one met, the one on the
    highest string number: the test is [diff <= min_diff]. *)
Theorem proximity_tie_keeps_last cache fr n scale_notes
    (r : list (Z * option Z)) f s cache' :
  NOTE_TO_STRING !! n = Some r →
  cache !! n = None →
  ¬ on_walk scale_notes r →
  (∃ s1 f1, reachable r s1 f1 ∧ Z.abs (f1 - fr) ≤ 999) →
  note_nearest_to_fret cache (Some fr) n scale_notes
  = (Ok (Some f, Some s), cache') →
  reachable r s f ∧
  ∀ s1 f1, reachable r s1 f1 →
    Z.abs (f - fr) ≤ Z.abs (f1 - fr) ∧
    (Z.abs (f1 - fr) = Z.abs (f - fr) → s1 ≤ s).
Proof.
  intros Hn Hc Hoff (s0 & f0 & Hre0 & Hd0) Hnn.
  rewrite (note_nearest_to_fret_eq _ _ _ _ _ Hn), Hc in Hnn.
  destruct (scan _ _ _ _ _ _ _) as [[p|a b]|e] eqn:Hscan; [| |done].
  { destruct (scan_returned _ _ _ _ _ _ _ _ Hscan) as [[Hre Hsc]|?]; [|done].
    destruct Hoff. exists p.2, p.1. by destruct p. }
  injection Hnn as <- <- _.
  destruct (scan_nearest _ _ _ _ _ _ _ _ Hscan)
    as [(_ & _ & Hall)|(l1 & l2 & Hr & Hnz & _ & Hl1 & Hl2)].
  { specialize (Hall _ _ Hre0). lia. }
  destruct (row_split_order r l1 l2 b (Some a) (NOTE_TO_STRING_keys _ _ Hn) Hr)
    as [Hlt _].
  subst r. split.
  { apply reachable_app. right. by left. }
  intros s1 f1 [Hre|[(-> & [= <-] & _)|Hre]]%reachable_app.
  - specialize (Hl1 _ _ Hre). split; [done|]. intros _.
    destruct Hre as [Hin _]. specialize (Hlt _ Hin). cbn [fst] in Hlt. lia.
  - split; [lia | done].
  - specialize (Hl2 _ _ Hre). split; lia.
Qed.

Lemma proximity_tie_keeps_last_witness :
  reachable (mk_row (Some 1) (Some 6) (Some 10) (Some 15) (Some 20) None) 3 10 ∧
  ∀ s1 f1,
    reachable (mk_row (Some 1) (Some 6) (Some 10) (Some 15) (Some 20) None) s1 f1 →
    Z.abs (10 - 8) ≤ Z.abs (f1 - 8) ∧ (Z.abs (f1 - 8) = Z.abs (10 - 8) → s1 ≤ 3).
Proof.
  refine (proximity_tie_keeps_last ∅ 8 "F4" []
            (mk_row (Some 1) (Some 6) (Some 10) (Some 15) (Some 20) None) 10 3
            (<["F4" := (10, 3)]> ∅) _ _ _ _ _).
  - vm_compute; reflexivity.
  - apply lookup_empty.
  - intros (s & f & _ & Hin). by apply elem_of_nil in Hin.
  - exists 2, 6. split; [|vm_compute; discriminate].
    split; [right; left | discriminate].
  - vm_compute; reflexivity.
Defined.

(** C7, as stated, fails: with the key of C major, C5 is played at fret 8,
    and F4, which has no position on the scale walk, is then as near at
    fret 6 of string 2 as at fret 10 of string 3; the answer is string 3. *)
Lemma proximity_tie_not_first :
  (@generate_notes tonic_first (Tabs_init (played ["C5"; "F4"]) c_major)).1
  = Ok [("C5", Some 1, Some 8); ("F4", Some 3, Some 10)] ∧
  NOTE_TO_STRING !! "F4"
  = Some (mk_row (Some 1) (Some 6) (Some 10) (Some 15) (Some 20) None) ∧
  Z.abs (6 - 8) = Z.abs (10 - 8) ∧
  (note_nearest_to_fret ∅ (Some 8) "F4" []).1 = Ok (Some 10, Some 3).
Proof. repeat split; vm_compute; reflexivity. Qed.

(** ** Whole runs of [generate_notes] *)

(** A run raises only what [find_start] raises. *)
Lemma generate_notes_ok `{Music21} t fret string scale_notes :
  find_start t = Ok (fret, string, scale_notes) →
  ∃ to_play cache',
    generate_notes t = (Ok to_play, set_notes_cache t cache').
Proof.
  intros Hfs. unfold generate_notes. rewrite Hfs.
  destruct (assign_notes_ok scale_notes (notes t) fret (notes_cache t))
    as (to_play & cache' & ->). eauto.
Qed.

(** What a run that returns did. *)
Lemma generate_notes_inv `{Music21} t to_play t' :
  generate_notes t = (Ok to_play, t') →
  ∃ fret string scale_notes cache',
    find_start t = Ok (fret, string, scale_notes) ∧
    assign_notes scale_notes (notes t) (Some fret) (notes_cache t)
    = (Ok to_play, cache') ∧
    t' = set_notes_cache t cache'.
Proof.
  unfold generate_notes.
  destruct (find_start t) as [[[fret string] scale_notes]|e]; [|done].
  destruct (assign_notes _ _ _ _) as [r cache'] eqn:Hrun.
  intros [= -> <-]. by exists fret, string, scale_notes, cache'.
Qed.

(** C3.  In the result of [generate_notes], whatever the notes, the key
    and the cache the object holds, the triples of one pitch all have the
    string and the fret of the first of them. *)
Theorem generate_notes_cache_consistency `{Music21} t to_play t' :
  generate_notes t = (Ok to_play, t') → consistent to_play.
Proof.
  intros (fret & string & scale_notes & cache' & _ & Hrun & _)%generate_notes_inv.
  by eapply assign_notes_consistent.
Qed.

Lemma generate_notes_cache_consistency_witness :
  consistent [("E4", Some 2, Some 5); ("E4", Some 2, Some 5)].
Proof.
  refine (generate_notes_cache_consistency (H := tonic_first)
            (Tabs_init (played ["E4"; "E4"]) c_major) _
            (@generate_notes tonic_first
               (Tabs_init (played ["E4"; "E4"]) c_major)).2 _).
  vm_compute; reflexivity.
Defined.

(** C9.  A second call of [generate_notes] on the object, with the cache
    the first call left in it, gives the result of the first call. *)
Theorem generate_notes_idempotent `{Music21} t :
  (generate_notes (generate_notes t).2).1 = (generate_notes t).1.
Proof.
  unfold generate_notes at 2 3.
  destruct (find_start t) as [[[fret string] scale_notes]|e] eqn:Hfs.
  - destruct (assign_notes_ok scale_notes (notes t) fret (notes_cache t))
      as (to_play & cache' & Hrun).
    rewrite Hrun. cbn [fst snd]. unfold generate_notes.
    rewrite find_start_cache, Hfs. cbn [notes notes_cache set_notes_cache].
    rewrite (assign_notes_replay _ _ _ _ _ _ Hrun cache' fret); [done|].
    by eapply assign_notes_emitted_settled.
  - cbn [fst snd]. unfold generate_notes. by rewrite Hfs.
Qed.

(** The second call also leaves the object as the first call left it. *)
Lemma generate_notes_twice_same_object `{Music21} t :
  (generate_notes (generate_notes t).2).2 = (generate_notes t).2.
Proof.
  unfold generate_notes at 2 3.
  destruct (find_start t) as [[[fret string] scale_notes]|e] eqn:Hfs.
  - destruct (assign_notes_ok scale_notes (notes t) fret (notes_cache t))
      as (to_play & cache' & Hrun).
    rewrite Hrun. cbn [fst snd]. unfold generate_notes.
    rewrite find_start_cache, Hfs. cbn [notes notes_cache set_notes_cache].
    rewrite (assign_notes_replay _ _ _ _ _ _ Hrun cache' fret); [done|].
    by eapply assign_notes_emitted_settled.
  - cbn [fst snd]. unfold generate_notes. by rewrite Hfs.
Qed.

(** C4.  In a run of [generate_notes] on a new object, a pitch that has a
    reachable position on the scale walk of [find_start] is played at such
    a position, and at the one of lowest string number. *)
Theorem generate_notes_scale_priority `{Music21} ns k fret string scale_notes
    to_play t' n s f (r : list (Z * option Z)) :
  find_start (Tabs_init ns k) = Ok (fret, string, scale_notes) →
  generate_notes (Tabs_init ns k) = (Ok to_play, t') →
  (n, s, f) ∈ to_play →
  NOTE_TO_STRING !! n = Some r →
  on_walk scale_notes r →
  ∃ sz fz,
    s = Some sz ∧ f = Some fz ∧ reachable r sz fz ∧ (fz, sz) ∈ scale_notes ∧
    ∀ s1 f1, reachable r s1 f1 → (f1, s1) ∈ scale_notes → sz ≤ s1.
Proof.
  intros Hfs (fret' & string' & sc' & cache' & Hfs' & Hrun & _)%generate_notes_inv
         Hin Hr Hw.
  rewrite Hfs in Hfs'. injection Hfs' as <- <- <-.
  cbn [notes notes_cache Tabs_init] in Hrun.
  assert (Hs : cache_sound scale_notes ∅).
  { intros m p r' Hm. by rewrite lookup_empty in Hm. }
  destruct (assign_notes_on_walk _ _ _ _ _ _ Hs Hrun) as [_ Hall].
  destruct (Hall _ _ _ _ Hin Hr Hw)
    as (l1 & sz & fz & l2 & Hsplit & -> & -> & Hnz & Hsc & Hl1).
  destruct (row_split_order r l1 l2 sz (Some fz) (NOTE_TO_STRING_keys _ _ Hr) Hsplit)
    as [_ Hgt].
  subst r. exists sz, fz. repeat split; try assumption.
  { apply elem_of_app. right. left. }
  intros s1 f1 [Hre|[(-> & _)|Hre]]%reachable_app Hsc1.
  - destruct Hl1. by exists s1, f1.
  - done.
  - destruct Hre as [Hin1 _]. specialize (Hgt _ Hin1). cbn [fst] in Hgt. lia.
Qed.

Lemma generate_notes_scale_priority_witness :
  ∃ sz fz,
    Some 3 = Some sz ∧ Some 5 = Some fz ∧
    reachable (mk_row None (Some 1) (Some 5) (Some 10) (Some 15) (Some 20)) sz fz ∧
    (fz, sz) ∈ [(5, 3); (7, 3); (9, 3); (5, 2); (7, 2); (9, 2); (7, 1); (8, 1); (10, 1)] ∧
    ∀ s1 f1,
      reachable (mk_row None (Some 1) (Some 5) (Some 10) (Some 15) (Some 20)) s1 f1 →
      (f1, s1) ∈ [(5, 3); (7, 3); (9, 3); (5, 2); (7, 2); (9, 2); (7, 1); (8, 1); (10, 1)] →
      sz ≤ s1.
Proof.
  refine (generate_notes_scale_priority (H := tonic_first)
            (played ["C4"]) c_major 5 3
            [(5, 3); (7, 3); (9, 3); (5, 2); (7, 2); (9, 2); (7, 1); (8, 1); (10, 1)]
            [("C4", Some 3, Some 5)]
            (@generate_notes tonic_first (Tabs_init (played ["C4"]) c_major)).2
            "C4" (Some 3) (Some 5)
            (mk_row None (Some 1) (Some 5) (Some 10) (Some 15) (Some 20))
            _ _ _ _ _).
  - vm_compute; reflexivity.
  - vm_compute; reflexivity.
  - left.
  - vm_compute; reflexivity.
  - exists 3, 5. split; [|left].
    split; [right; right; left | discriminate].
Defined.

(** ** The tab renderer *)

Lemma len_app a b : len (a +:+ b) = len a + len b.
Proof.
  unfold len. induction a as [|c a IH]; [reflexivity | simpl; lia].
Qed.

Lemma len_str_repeat c n : len (str_repeat c n) = Z.max 0 n.
Proof.
  unfold len, str_repeat.
  assert (G : ∀ k, String.length (Nat.iter k (String c) "") = k).
  { induction k as [|k IH]; [done|].
    change (Nat.iter (S k) (String c) "") with (String c (Nat.iter k (String c) "")).
    cbn [String.length]. by rewrite IH. }
  rewrite G. lia.
Qed.

Lemma str_index_past s i : len s ≤ i → str_index s i = Raise IndexError.
Proof.
  intros Hi. unfold str_index. assert (0 ≤ len s) by (unfold len; lia).
  destruct (Z.ltb_spec i 0); [lia|].
  destruct (Z.ltb_spec i 0); [lia|].
  destruct (Z.leb_spec (len s) i); [done | lia].
Qed.

Lemma substring_none n s : String.substring n 0 s = "".
Proof.
  revert s. induction n as [|n IH]; intros [|c s]; cbn [String.substring]; auto.
Qed.

Lemma str_from_past s start : len s ≤ start → str_from s start = "".
Proof.
  intros Hs. assert (0 ≤ len s) by (unfold len; lia).
  unfold str_from, str_slice, slice_bound.
  destruct (Z.ltb_spec start 0); [lia|].
  destruct (Z.ltb_spec (len s) 0); [lia|].
  replace (Z.min (len s) (len s) - Z.min start (len s)) with 0 by lia.
  apply substring_none.
Qed.

Lemma max_len_ge fretboard s : s ∈ fretboard → len s ≤ max_len fretboard.
Proof.
  induction fretboard as [|s' fretboard IH]; intros Hin.
  - by apply elem_of_nil in Hin.
  - cbn [max_len foldr]. fold (max_len fretboard).
    apply elem_of_cons in Hin as [->|Hin]; [lia|]. specialize (IH Hin). lia.
Qed.

(** After the padding loop all strings have the length of the longest. *)
Lemma pad_all_len fretboard s :
  s ∈ pad_all fretboard → len s = max_len fretboard.
Proof.
  unfold pad_all. intros (s' & -> & Hin)%list_elem_of_fmap.
  rewrite len_app, len_str_repeat. pose proof (max_len_ge _ _ Hin). lia.
Qed.

Lemma list_assign_length {A : Type} (l l' : list A) i x :
  list_assign l i x = Ok l' → length l' = length l.
Proof.
  unfold list_assign. destruct (_ || _); [done|].
  intros [= <-]. apply length_insert.
Qed.

Lemma align_length idxs i fretboard fretboard' :
  align idxs i fretboard = Ok fretboard' → length fretboard' = length fretboard.
Proof.
  revert fretboard. induction idxs as [|idx idxs IH]; intros fretboard.
  - by intros [= <-].
  - cbn [align]. destruct (fretboard !! idx) as [fs|]; [|by intros [= <-]].
    destruct (list_index fretboard i) as [target|e]; [|done]. cbn [res_bind].
    destruct (_ <? _); [|apply IH].
    destruct (list_assign _ _ _) as [fb1|e] eqn:Ha; [|done]. cbn [res_bind].
    intros H%IH. rewrite H. by eapply list_assign_length.
Qed.

(** The loop over the triples keeps the six strings six. *)
Lemma place_length notes_list fretboard fretboard' :
  place notes_list fretboard = Ok fretboard' →
  length fretboard' = length fretboard.
Proof.
  revert fretboard. induction notes_list as [|[[n s] f] notes_list IH];
    intros fretboard.
  - by intros [= <-].
  - cbn [place]. destruct s as [s|]; [|done].
    destruct (align _ _ _) as [fb1|e] eqn:H1; [|done]. cbn [res_bind].
    destruct (list_index fb1 _) as [target|e]; [|done]. cbn [res_bind].
    destruct (list_assign _ _ _) as [fb2|e] eqn:H2; [|done]. cbn [res_bind].
    intros H%IH. rewrite H. apply list_assign_length in H2.
    apply align_length in H1. lia.
Qed.

(** A tab that is not longer than [staff_length] is not rendered: the
    search for the break point reads past the end of the first string. *)
Lemma render_short_tab_raises fuel notes_list staff_length fretboard :
  place notes_list (replicate (Z.to_nat GUITAR_STRING) "") = Ok fretboard →
  max_len fretboard ≤ staff_length →
  render fuel notes_list (Some staff_length) = Some (Raise IndexError).
Proof.
  intros Hplace Hmax. unfold render. cbn [default from_option id]. rewrite Hplace.
  apply place_length in Hplace. rewrite length_replicate in Hplace.
  assert (Hlen : length (pad_all fretboard) = 6%nat).
  { unfold pad_all. by rewrite length_map. }
  destruct (pad_all fretboard) as [|s rest] eqn:Hpad; [done|].
  assert (Hs : len s = max_len fretboard).
  { apply pad_all_len. rewrite Hpad. left. }
  cbn [find_break]. rewrite str_index_past by lia. done.
Qed.

Lemma list_index_ok {A : Type} (l : list A) i :
  0 ≤ i < Z.of_nat (length l) → ∃ x, list_index l i = Ok x ∧ x ∈ l.
Proof.
  intros Hi. unfold list_index.
  destruct (Z.ltb_spec i 0); [lia|].
  destruct (Z.ltb_spec i 0); [lia|].
  destruct (Z.leb_spec (Z.of_nat (length l)) i); [lia|]. cbn [orb].
  destruct (l !! Z.to_nat i) as [x|] eqn:Hx.
  - exists x. split; [done|]. by eapply list_elem_of_lookup_2.
  - apply lookup_ge_None in Hx. lia.
Qed.

Lemma block_ok idx fretboard start stop :
  0 ≤ idx → idx + Z.of_nat (length fretboard) ≤ 6 →
  ∃ lines, block idx fretboard start stop = Ok lines.
Proof.
  revert idx. induction fretboard as [|s fretboard IH]; intros idx H0 H6.
  - cbn [block]. eauto.
  - cbn [block length] in *.
    assert (Hl : ∃ label, dict_item GUITAR_STAFF idx = Ok label).
    { assert (Hi : idx = 0 ∨ idx = 1 ∨ idx = 2 ∨ idx = 3 ∨ idx = 4 ∨ idx = 5)
        by lia.
      repeat (destruct Hi as [-> | Hi]); try subst idx;
        eexists; vm_compute; reflexivity. }
    destruct Hl as [label ->]. cbn [res_bind].
    destruct (IH (idx + 1)) as [lines ->]; [lia | lia |].
    cbn [res_bind]. eauto.
Qed.

Lemma find_break_ge fretboard break_point bp :
  find_break fretboard break_point = Ok bp → break_point ≤ bp.
Proof.
  revert break_point. induction fretboard as [|s fretboard IH]; intros b.
  - intros [= <-]. lia.
  - cbn [find_break]. destruct (str_index s b) as [c|e]; [|done].
    cbn [res_bind]. destruct (negb _); intros H%IH; lia.
Qed.

(** With a positive step the [while True] loop reaches its [break]. *)
Lemma emit_terminates fretboard staff_length break_point :
  length fretboard = 6%nat → 0 < break_point →
  ∀ fuel string_idx start output,
    0 ≤ string_idx < 6 → 0 ≤ start →
    (Z.to_nat (Z.max (max_len fretboard) staff_length + 1 - start) < fuel)%nat →
    ∃ lines,
      emit fuel fretboard staff_length break_point string_idx start
        (start + break_point) output = Some (Ok lines).
Proof.
  intros Hlen Hbp. induction fuel as [|fuel IH];
    intros string_idx start output Hidx Hstart Hfuel; [lia|].
  cbn [emit].
  destruct (list_index_ok fretboard string_idx) as (s & -> & Hs); [lia|].
  pose proof (max_len_ge _ _ Hs) as Hmax.
  destruct (bool_decide _ && _) eqn:Hbreak; [eauto|].
  destruct (block_ok 0 fretboard start (start + break_point)) as [lines ->];
    [lia | lia |].
  apply IH.
  - unfold GUITAR_STRING. apply Z.mod_pos_bound. lia.
  - lia.
  - apply andb_false_iff in Hbreak as [Hne|Hle].
    + apply bool_decide_eq_false in Hne.
      destruct (Z.le_gt_cases (len s) start) as [Hpast|Hin]; [|lia].
      by destruct Hne; apply str_from_past.
    + apply Z.ltb_ge in Hle. lia.
Qed.

(** [render] returns whenever the two loops before the [while True] raise
    nothing and [staff_length] is positive. *)
Lemma render_returns notes_list staff_length fretboard break_point :
  0 < staff_length →
  place notes_list (replicate (Z.to_nat GUITAR_STRING) "") = Ok fretboard →
  find_break (pad_all fretboard) staff_length = Ok break_point →
  ∃ fuel lines, render fuel notes_list (Some staff_length) = Some (Ok lines).
Proof.
  intros Hpos Hplace Hbreak.
  exists (S (Z.to_nat (Z.max (max_len (pad_all fretboard)) staff_length + 1))).
  unfold render. cbn [default from_option id]. rewrite Hplace, Hbreak.
  apply place_length in Hplace. rewrite length_replicate in Hplace.
  apply find_break_ge in Hbreak.
  apply (emit_terminates (pad_all fretboard) staff_length break_point);
    [unfold pad_all; by rewrite length_map | lia | lia | lia | lia].
Qed.

(** C2: the code goes against the claim.  The one triple that
    [generate_notes] returns for the note C4 in the key of C major makes
    strings of 3 characters; with [staff_length=10] the search for the
    break point reads [string[10]] and [render] raises [IndexError],
    before the loop that writes the lines. *)
Theorem render_single_note_raises :
  (@generate_notes tonic_first (Tabs_init (played ["C4"]) c_major)).1
  = Ok [("C4", Some 3, Some 5)] ∧
  ∀ fuel, render fuel [("C4", Some 3, Some 5)] (Some 10) = Some (Raise IndexError).
Proof. split; [|intros fuel]; vm_compute; reflexivity. Qed.

(** The same holds of every single triple with a string from 1 to 6 and a
    fret from 0 to 22, also with the default [staff_length]. *)
Lemma render_single_triple_raises fuel n s f :
  1 ≤ s ≤ 6 → 0 ≤ f ≤ 22 →
  render fuel [(n, Some s, Some f)] (Some 10) = Some (Raise IndexError) ∧
  render fuel [(n, Some s, Some f)] None = Some (Raise IndexError).
Proof.
  intros Hs Hf.
  assert (Hs' : s = 1 ∨ s = 2 ∨ s = 3 ∨ s = 4 ∨ s = 5 ∨ s = 6) by lia.
  assert (Hf' : f = 0 ∨ f = 1 ∨ f = 2 ∨ f = 3 ∨ f = 4 ∨ f = 5 ∨ f = 6 ∨ f = 7 ∨
                f = 8 ∨ f = 9 ∨ f = 10 ∨ f = 11 ∨ f = 12 ∨ f = 13 ∨ f = 14 ∨
                f = 15 ∨ f = 16 ∨ f = 17 ∨ f = 18 ∨ f = 19 ∨ f = 20 ∨ f = 21 ∨
                f = 22) by lia.
  repeat (destruct Hs' as [-> | Hs']); try subst s;
    repeat (destruct Hf' as [-> | Hf']); try subst f;
    split; vm_compute; reflexivity.
Qed.

(** With a short enough [staff_length] the same triple is rendered: the
    loop ends and the lines come in blocks of six and an empty line. *)
Lemma render_single_note_narrow :
  render 3 [("C4", Some 3, Some 5)] (Some 1)
  = Some (Ok ["E--"; "A--"; "D-5"; "G--"; "B--"; "E--"; "";
              "E-"; "A-"; "D-"; "G-"; "B-"; "E-"; ""]).
Proof. vm_compute; reflexivity. Qed.

(** ** The walks of the start-position finder *)

Lemma NOTE_TO_STRING_strings n (r : list (Z * option Z)) s e :
  NOTE_TO_STRING !! n = Some r → (s, e) ∈ r → 1 ≤ s ≤ 6.
Proof.
  intros Hn Hin. apply NOTE_TO_STRING_keys in Hn.
  apply (list_elem_of_fmap_2 fst) in Hin. rewrite Hn in Hin. cbn [fst] in Hin.
  rewrite !elem_of_cons, elem_of_nil in Hin. lia.
Qed.

Section Walk.
Variable steps : list Z.
Variable r : list (Z * option Z).
Variables note_string note_fret : Z.
Hypothesis steps_nonempty : steps ≠ [].
Hypothesis steps_small : Forall (fun d => 1 ≤ d ≤ 2) steps.
Hypothesis string_pos : 1 ≤ note_string.
Hypothesis item_reachable : reachable r note_string note_fret.

Local Abbreviation walk_inv := (walk_invariant steps r note_string note_fret).

Lemma walk_inv_ok span w st :
  walk_inv span w st → w_shared w = true → finder_ok r st.
Proof.
  intros (_ & _ & _ & Hhead & Hwin & [Hlen _] & Hsh) Hshared.
  rewrite Hshared in Hsh. destruct Hsh as (Hf & Hs & Hl & Hm & Hm1 & Hl2).
  right. rewrite Hf, Hs, Hl.
  split; [exact Hm1|]. split; [exact item_reachable|].
  split; [exact Hhead|]. split; [exact Hwin|]. lia.
Qed.

Lemma walk_loop_turn span w st :
  walk_loop steps note_string note_fret (S span) w st =
  if 0 <? w_string w then
    letr d := list_index steps (w_step w) in
    walk_loop steps note_string note_fret span
      (walk_turn steps note_string note_fret d w st).1
      (walk_turn steps note_string note_fret d w st).2
  else Ok (w, st).
Proof.
  cbn [walk_loop]. destruct (0 <? w_string w); [|done].
  destruct (list_index steps (w_step w)) as [d|e]; [|done].
  cbn [res_bind]. unfold walk_turn.
  destruct (note_fret + 3 <? w_fret w + d), (w_shared w);
    cbn [max_count]; destruct (_ <? w_num_notes w + 1); reflexivity.
Qed.

(** A turn of the loop keeps what holds at its top. *)
Lemma walk_turn_inv span w st d :
  walk_inv (S span) w st → 0 < w_string w → d ∈ steps →
  walk_inv span (walk_turn steps note_string note_fret d w st).1
                (walk_turn steps note_string note_fret d w st).2 ∧
  max_count st ≤ max_count (walk_turn steps note_string note_fret d w st).2 ∧
  w_num_notes w < max_count (walk_turn steps note_string note_fret d w st).2.
Proof.
  intros (Hstep & Hfret & Hstring & Hhead & Hwin & [Hlen Hnum] & Hsh) Hpos Hd.
  rewrite Forall_forall in steps_small. specialize (steps_small _ Hd).
  assert (Hlen1 : (1 ≤ length (w_note_list w))%nat).
  { destruct (w_note_list w); [discriminate | cbn [length]; lia]. }
  assert (Hhead' : head (w_note_list w ++ [(w_fret w + d, w_string w)])
                   = Some (note_fret, note_string)).
  { destruct (w_note_list w); [done | exact Hhead]. }
  assert (Hwin' : walk_window note_fret note_string
                    (w_note_list w ++ [(w_fret w + d, w_string w)])).
  { apply Forall_app. split; [exact Hwin|].
    constructor; [|constructor]. cbn [fst snd]. lia. }
  assert (Hlen' : length (w_note_list w ++ [(w_fret w + d, w_string w)])
                  = S (length (w_note_list w))).
  { rewrite length_app. cbn [length]. lia. }
  assert (Hstep' : 0 ≤ (if Z.of_nat (length steps) <=? w_step w + 1
                        then 0 else w_step w + 1) < Z.of_nat (length steps)).
  { destruct (Z.leb_spec (Z.of_nat (length steps)) (w_step w + 1)); [|lia].
    destruct steps; [done | cbn [length]; lia]. }
  unfold walk_turn, walk_invariant.
  destruct (w_shared w) eqn:Hshared.
  - destruct Hsh as (Hf & Hs & Hl & Hm & Hm1 & Hl2).
    cbn [max_count]. rewrite Hm.
    destruct (Z.ltb_spec (w_num_notes w) (w_num_notes w + 1)); [|lia].
    destruct (Z.ltb_spec (note_fret + 3) (w_fret w + d));
      cbn [fst snd w_string w_fret w_num_notes w_step w_note_list w_shared
           max_count start_fret start_string start_scale_notes];
      rewrite ?Hlen';
      (split; [|lia]);
      (split; [exact Hstep'|]); (split; [destruct (w_string w =? 2); lia|]);
      (split; [lia|]); (split; [exact Hhead'|]); (split; [exact Hwin'|]);
      (split; [lia|]); repeat split; lia.
  - destruct Hsh as [Hok0 Hm0].
    destruct (Z.ltb_spec (note_fret + 3) (w_fret w + d));
      destruct (Z.ltb_spec (max_count st) (w_num_notes w + 1)) as [Hup|Hno];
      cbn [fst snd w_string w_fret w_num_notes w_step w_note_list w_shared
           max_count start_fret start_string start_scale_notes];
      rewrite ?Hlen';
      (split; [|lia]);
      (split; [exact Hstep'|]); (split; [destruct (w_string w =? 2); lia|]);
      (split; [lia|]); (split; [exact Hhead'|]); (split; [exact Hwin'|]);
      (split; [lia|]); repeat split; (exact Hok0 || lia).
Qed.

Lemma walk_loop_inv span w st :
  walk_inv span w st →
  ∃ w' st',
    walk_loop steps note_string note_fret span w st = Ok (w', st') ∧
    finder_ok r st' ∧ max_count st ≤ max_count st' ∧
    ((0 < span)%nat → 0 < w_string w → w_num_notes w < max_count st').
Proof.
  revert w st. induction span as [|span IH]; intros w st Hinv.
  - exists w, st. split; [done|]. split; [|split; [lia | lia]].
    destruct (w_shared w) eqn:Hshared.
    + by apply (walk_inv_ok 0 w st).
    + destruct Hinv as (_ & _ & _ & _ & _ & _ & Hsh).
      rewrite Hshared in Hsh. apply Hsh.
  - rewrite walk_loop_turn.
    destruct (Z.ltb_spec 0 (w_string w)) as [Hpos|Hneg].
    + pose proof Hinv as (Hstep & _).
      destruct (list_index_ok steps (w_step w) Hstep) as (d & -> & Hd).
      cbn [res_bind].
      destruct (walk_turn_inv span w st d Hinv Hpos Hd) as (Hinv' & Hle & Hlt).
      destruct (IH _ _ Hinv') as (w' & st' & -> & Hok & Hmax & _).
      exists w', st'. repeat split; try done; lia.
    + exists w, st. split; [done|]. split; [|split; [lia | lia]].
      destruct (w_shared w) eqn:Hshared.
      * by apply (walk_inv_ok (S span) w st).
      * destruct Hinv as (_ & _ & _ & _ & _ & _ & Hsh).
        rewrite Hshared in Hsh. apply Hsh.
Qed.
End Walk.

Lemma finder_ok_count (r : list (Z * option Z)) st :
  finder_ok r st → 0 ≤ max_count st.
Proof. intros [->|[H _]]; [done | lia]. Qed.

(** A candidate leaves a start that is a position of the row, and a
    reachable candidate leaves a walk of one note at least. *)
Lemma candidate_inv steps (r : list (Z * option Z)) st s e :
  steps ≠ [] → Forall (fun d => 1 ≤ d ≤ 2) steps →
  1 ≤ s → (s, e) ∈ r → finder_ok r st →
  ∃ st', candidate steps st (s, e) = Ok st' ∧ finder_ok r st' ∧
         max_count st ≤ max_count st' ∧
         (truthy e = true → 1 ≤ max_count st').
Proof.
  intros Hne Hsmall Hs Hin Hok. cbn [candidate].
  destruct e as [f|]; [|exists st; repeat split; (done || lia)].
  destruct (truthy (Some f)) eqn:Ht; [|exists st; repeat split; (done || lia)].
  assert (Hre : reachable r s f).
  { split; [done|]. cbn [truthy] in Ht. intros ->. done. }
  destruct (walk_loop_inv steps r s f Hne Hsmall Hre 8
              {| w_string := s; w_fret := f; w_num_notes := 0; w_step := 0;
                 w_note_list := [(f, s)]; w_shared := false |} st)
    as (w' & st' & -> & Hok' & Hmax & Hgt).
  { unfold walk_invariant.
    cbn [w_string w_fret w_num_notes w_step w_note_list w_shared head length].
    pose proof (finder_ok_count _ _ Hok).
    split; [destruct steps; [done | cbn [length]; lia]|].
    split; [lia|]. split; [lia|]. split; [done|].
    split; [constructor; [cbn [fst snd]; lia | constructor]|].
    split; [lia|]. by split. }
  cbn [res_bind snd]. exists st'. repeat split; try done.
  intros _. cbn [w_string w_num_notes] in Hgt. lia.
Qed.

Lemma candidates_inv steps (r items : list (Z * option Z)) st :
  steps ≠ [] → Forall (fun d => 1 ≤ d ≤ 2) steps →
  (∀ s e, (s, e) ∈ items → 1 ≤ s ∧ (s, e) ∈ r) →
  finder_ok r st →
  ∃ st', candidates steps st items = Ok st' ∧ finder_ok r st' ∧
         max_count st ≤ max_count st' ∧
         (¬ unreachable items → 1 ≤ max_count st').
Proof.
  intros Hne Hsmall. revert st.
  induction items as [|[s e] items IH]; intros st Hsub Hok.
  - exists st. split; [done|]. split; [done|]. split; [lia|].
    intros []. constructor.
  - destruct (Hsub s e) as [Hs Hin]; [left|].
    destruct (candidate_inv steps r st s e Hne Hsmall Hs Hin Hok)
      as (st1 & Hc & Hok1 & Hmax1 & Hre1).
    cbn [candidates]. rewrite Hc. cbn [res_bind].
    destruct (IH st1) as (st' & -> & Hok' & Hmax' & Hre');
      [intros s' e' Hin'; apply Hsub; by right | done |].
    exists st'. split; [done|]. split; [done|]. split; [lia|].
    intros Hun. destruct (truthy e) eqn:Ht.
    + specialize (Hre1 eq_refl). lia.
    + apply Hre'. intros Hu. apply Hun. by constructor.
Qed.

(** What a call of [find_start] that returns has gone through. *)
Lemma find_start_inv `{Music21} t x :
  find_start t = Ok x →
  ∃ fixed steps first name (r : list (Z * option Z)) st,
    _fix_note_name (key t).1 = Ok fixed ∧
    SCALE !! (key t).2 = Some steps ∧
    list_index (pitches (_get_scale t)) 0 = Ok first ∧
    _fix_note_name (PStr first) = Ok name ∧
    NOTE_TO_STRING !! name = Some r ∧
    candidates steps finder0 r = Ok st ∧
    x = (start_fret st, start_string st, start_scale_notes st).
Proof.
  unfold find_start, dict_item. destruct (key t) as [pitch scale_type].
  cbn [fst snd].
  destruct (_fix_note_name pitch) as [fixed|e] eqn:H1; [|done].
  cbn [res_bind].
  destruct (SCALE !! scale_type) as [steps|] eqn:H2; [|done]. cbn [res_bind].
  destruct (list_index _ 0) as [first|e] eqn:H3; [|done]. cbn [res_bind].
  destruct (_fix_note_name (PStr first)) as [name|e] eqn:H4; [|done].
  cbn [res_bind].
  destruct (NOTE_TO_STRING !! name) as [r|] eqn:H5; [|done]. cbn [res_bind].
  destruct (candidates steps finder0 r) as [st|e] eqn:Hc; [|done].
  cbn [res_bind]. intros [= <-].
  exists fixed, steps, first, name, r, st.
  repeat split; assumption || reflexivity.
Qed.

Lemma candidates_of_row steps name (r : list (Z * option Z)) :
  SCALE_steps_ok steps →
  NOTE_TO_STRING !! name = Some r →
  ∃ st, candidates steps finder0 r = Ok st ∧ finder_ok r st ∧
        (¬ unreachable r → 1 ≤ max_count st).
Proof.
  intros [Hne Hsmall] Hr.
  destruct (candidates_inv steps r r finder0 Hne Hsmall) as (st & Hc & Hok & _ & Hre).
  - intros s e Hin. split; [|done].
    by destruct (NOTE_TO_STRING_strings _ _ _ _ Hr Hin).
  - by left.
  - by exists st.
Qed.

(** The start fret of [find_start] is 0 or a fret of the table. *)
Lemma find_start_fret `{Music21} t fret string scale_notes :
  find_start t = Ok (fret, string, scale_notes) → 0 ≤ fret ≤ 22.
Proof.
  intros (fixed & steps & first & name & r & st & _ & Hs & _ & _ & Hr & Hc & Hx)
    %find_start_inv.
  injection Hx as -> -> ->.
  destruct (candidates_of_row steps name r (SCALE_steps _ _ Hs) Hr)
    as (st' & Hc' & Hok & _).
  rewrite Hc in Hc'. injection Hc' as <-.
  destruct Hok as [->|(_ & [Hin _] & _)]; [done|].
  pose proof (NOTE_TO_STRING_frets _ _ _ _ Hr Hin). lia.
Qed.

(** X1.  When the mode of the key is in [SCALE] and the first pitch of
    the scale has a reachable position, [find_start] returns: the start
    is a reachable position of that pitch, the scale walk begins with the
    start and has from 2 to 9 positions, each of them at most five frets
    above the start fret and on a string from 1 to the start string. *)
Theorem find_start_walk `{Music21} t pitch scale_type fixed steps first name
    (r : list (Z * option Z)) :
  key t = (pitch, scale_type) →
  _fix_note_name pitch = Ok fixed →
  SCALE !! scale_type = Some steps →
  list_index (pitches (_get_scale t)) 0 = Ok first →
  _fix_note_name (PStr first) = Ok name →
  NOTE_TO_STRING !! name = Some r →
  ¬ unreachable r →
  ∃ fret string walk,
    find_start t = Ok (fret, string, walk) ∧
    reachable r string fret ∧
    head walk = Some (fret, string) ∧
    (2 ≤ length walk ≤ 9)%nat ∧
    walk_window fret string walk.
Proof.
  intros Hkey Hfix Hsteps Hfirst Hname Hr Hre.
  destruct (candidates_of_row steps name r (SCALE_steps _ _ Hsteps) Hr)
    as (st & Hc & Hok & Hcount).
  specialize (Hcount Hre).
  destruct Hok as [->|(_ & Hstart & Hhead & Hwin & Hlen)];
    [cbn [max_count finder0] in Hcount; lia|].
  exists (start_fret st), (start_string st), (start_scale_notes st).
  split; [|done].
  unfold find_start, dict_item. rewrite Hkey, Hfix, Hsteps. cbn [res_bind].
  rewrite Hfirst. cbn [res_bind]. rewrite Hname. cbn [res_bind].
  rewrite Hr. cbn [res_bind]. by rewrite Hc.
Qed.

Lemma find_start_walk_witness :
  ∃ fret string walk,
    @find_start tonic_first (Tabs_init [] c_major) = Ok (fret, string, walk) ∧
    reachable (mk_row None (Some 1) (Some 5) (Some 10) (Some 15) (Some 20))
      string fret ∧
    head walk = Some (fret, string) ∧
    (2 ≤ length walk ≤ 9)%nat ∧
    walk_window fret string walk.
Proof.
  refine (find_start_walk (H := tonic_first) (Tabs_init [] c_major)
            (PStr "C4") "major" "C4" [2; 2; 1; 2; 2; 2; 1] "C4" "C4"
            (mk_row None (Some 1) (Some 5) (Some 10) (Some 15) (Some 20))
            _ _ _ _ _ _ _); try (vm_compute; reflexivity).
  intros Hu. apply Forall_cons in Hu as [_ Hu].
  apply Forall_cons in Hu as [Hu _]. discriminate Hu.
Defined.

(** X2.  [find_start] raises [KeyError] for every mode name that is not
    one of the ten of [SCALE], the names for which [_get_scale] falls
    back to the major scale included: the fallback is reached through
    [find_start] for no other modes than mixolydian and jazz_minor. *)
Theorem find_start_unknown_mode `{Music21} t pitch scale_type fixed :
  key t = (pitch, scale_type) →
  _fix_note_name pitch = Ok fixed →
  scale_type ∉ ["major"; "ionian"; "dorian"; "phrygian"; "lydian";
                "mixolydian"; "locrian"; "minor"; "aeolian"; "jazz_minor"] →
  find_start t = Raise KeyError.
Proof.
  intros Hkey Hfix Hm. unfold find_start, dict_item.
  rewrite Hkey, Hfix. cbn [res_bind]. by rewrite (SCALE_unknown _ Hm).
Qed.

Lemma find_start_unknown_mode_witness :
  @find_start tonic_first (Tabs_init [] (PStr "C4", "blues")) = Raise KeyError.
Proof.
  refine (find_start_unknown_mode (H := tonic_first)
            (Tabs_init [] (PStr "C4", "blues")) (PStr "C4") "blues" "C4" _ _ _).
  - reflexivity.
  - vm_compute; reflexivity.
  - rewrite !not_elem_of_cons. repeat split; try discriminate.
    apply not_elem_of_nil.
Defined.

(** ** More on whole runs of [generate_notes] *)

Lemma not_reachable_unreachable (r : list (Z * option Z)) :
  (∀ s f, ¬ reachable r s f) → unreachable r.
Proof.
  induction r as [|[s e] r IH]; intros Hno; [constructor|].
  constructor.
  - cbn [snd]. destruct e as [f|]; [|done]. cbn [truthy].
    destruct (Z.eqb_spec f 0) as [->|Hnz]; [done|].
    destruct (Hno s f). split; [left | done].
  - apply IH. intros s' f' [Hin Hnz]. apply (Hno s' f').
    split; [by right | done].
Qed.

(** With a current fret from 0 to 999 and a playable cache, the answer
    for a pitch of the table is a reachable position of the pitch, or
    [(999, 999)] when the pitch has none; the cache stays playable. *)
Lemma note_nearest_to_fret_playable cache fr n scale_notes
    (r : list (Z * option Z)) f s cache' :
  NOTE_TO_STRING !! n = Some r →
  0 ≤ fr ≤ 999 →
  cache_playable cache →
  note_nearest_to_fret cache (Some fr) n scale_notes
  = (Ok (Some f, Some s), cache') →
  (reachable r s f ∨ (unreachable r ∧ f = 999 ∧ s = 999)) ∧
  cache_playable cache'.
Proof.
  intros Hn Hfr Hcache Hnn.
  rewrite (note_nearest_to_fret_eq _ _ _ _ _ Hn) in Hnn.
  destruct (scan _ _ _ _ _ _ _) as [[p|a b]|e] eqn:Hscan; [| |done].
  - injection Hnn as <- <- <-. split; [|done].
    destruct (scan_returned _ _ _ _ _ _ _ _ Hscan) as [[Hre _]|Hc];
      [by left|].
    destruct (Hcache _ _ _ Hc Hn) as [Hre|[Hu ->]]; [by left|].
    right. by repeat split.
  - injection Hnn as <- <- <-.
    assert (Hab : reachable r b a ∨ (unreachable r ∧ a = 999 ∧ b = 999)).
    { destruct (scan_finished _ _ _ _ _ _ _ _ _ Hscan)
        as [(Hu & -> & ->)|[Hc _]]; [by right|].
      rewrite Hc in Hscan.
      destruct (scan_nearest _ _ _ _ _ _ _ _ Hscan)
        as [(-> & -> & Hall)|(l1 & l2 & -> & Hnz & _)].
      - right. split; [|done]. apply not_reachable_unreachable.
        intros s0 f0 Hre. specialize (Hall _ _ Hre).
        destruct Hre as [Hin _].
        pose proof (NOTE_TO_STRING_frets _ _ _ _ Hn Hin). lia.
      - left. apply reachable_app. right. by left. }
    split; [exact Hab|].
    intros m q r' Hm Hr'. destruct (decide (n = m)) as [<-|Hne].
    + rewrite lookup_insert_eq in Hm. injection Hm as <-.
      rewrite Hn in Hr'. injection Hr' as <-. cbn [fst snd].
      destruct Hab as [Hre|(Hu & -> & ->)]; [by left | by right].
    + rewrite lookup_insert_ne in Hm by done. by eapply Hcache.
Qed.

Lemma assign_notes_playable scale_notes ns fr cache to_play cache' :
  0 ≤ fr ≤ 999 → cache_playable cache →
  assign_notes scale_notes ns (Some fr) cache = (Ok to_play, cache') →
  ∀ n s f (r : list (Z * option Z)),
    (n, s, f) ∈ to_play → NOTE_TO_STRING !! n = Some r →
    (∃ sz fz, s = Some sz ∧ f = Some fz ∧ reachable r sz fz) ∨
    (unreachable r ∧ s = Some 999 ∧ f = Some 999).
Proof.
  revert fr cache to_play. induction ns as [|m ns IH];
    intros fr cache to_play Hfr Hcache H.
  - simpl in H. injection H as <- <-. intros n s f r Hin.
    by apply elem_of_nil in Hin.
  - apply assign_notes_inv in H
      as [[Hm H]|(r & f & s & cache1 & to_play' & Hm & Hnn & H & ->)].
    + by eapply IH.
    + destruct (note_nearest_to_fret_playable _ _ _ _ _ _ _ _ Hm Hfr Hcache Hnn)
        as [Hfs Hcache1].
      assert (Hf : 0 ≤ f ≤ 999).
      { destruct Hfs as [[Hin _]|(_ & -> & _)]; [|lia].
        pose proof (NOTE_TO_STRING_frets _ _ _ _ Hm Hin). lia. }
      intros n0 s0 f0 r0 [[= -> -> ->]|Hin]%elem_of_cons Hr0;
        [|by eapply (IH f cache1)].
      rewrite Hm in Hr0. injection Hr0 as <-.
      destruct Hfs as [Hre|(Hu & -> & ->)]; [left; eauto | by right].
Qed.

(** The pitches of the result are those of the notes, in their order,
    less the pitches that are not in the table. *)
Lemma assign_notes_pitches scale_notes ns fr cache to_play cache' :
  assign_notes scale_notes ns (Some fr) cache = (Ok to_play, cache') →
  to_play.*1.*1
  = filter (fun n => is_Some (NOTE_TO_STRING !! n)) (note <$> ns).
Proof.
  revert fr cache to_play. induction ns as [|m ns IH];
    intros fr cache to_play H.
  - simpl in H. by injection H as <- <-.
  - rewrite fmap_cons.
    apply assign_notes_inv in H
      as [[Hm H]|(r & f & s & cache1 & to_play' & Hm & Hnn & H & ->)].
    + rewrite filter_cons_False by (rewrite Hm; by intros [? ?]).
      by eapply IH.
    + rewrite filter_cons_True by (rewrite Hm; eauto).
      rewrite !fmap_cons. cbn [fst]. f_equal. by eapply IH.
Qed.

(** X3.  The result of [generate_notes] has one triple for each note
    whose pitch is in [NOTE_TO_STRING], in the order of the notes, and
    none for the others. *)
Theorem generate_notes_keeps_order `{Music21} t to_play t' :
  generate_notes t = (Ok to_play, t') →
  to_play.*1.*1
  = filter (fun n => is_Some (NOTE_TO_STRING !! n)) (note <$> notes t).
Proof.
  intros (fret & string & scale_notes & cache' & _ & Hrun & _)%generate_notes_inv.
  by eapply assign_notes_pitches.
Qed.

Lemma generate_notes_keeps_order_witness :
  [("C4", Some 3, Some 5); ("F4", Some 2, Some 6)].*1.*1
  = filter (fun n => is_Some (NOTE_TO_STRING !! n))
      (note <$> played ["C4"; "C2"; ""; "F4"]).
Proof.
  refine (generate_notes_keeps_order (H := tonic_first)
            (Tabs_init (played ["C4"; "C2"; ""; "F4"]) c_major) _
            (@generate_notes tonic_first
               (Tabs_init (played ["C4"; "C2"; ""; "F4"]) c_major)).2 _).
  vm_compute; reflexivity.
Defined.

(** X4.  [generate_notes] raises what [find_start] raises, and then
    leaves the object as it was; when [find_start] returns it returns
    too, whatever the notes: the loop over the notes raises nothing. *)
Theorem generate_notes_raises_with_find_start `{Music21} t :
  match find_start t with
  | Raise e => generate_notes t = (Raise e, t)
  | Ok _ => ∃ to_play cache',
              generate_notes t = (Ok to_play, set_notes_cache t cache')
  end.
Proof.
  unfold generate_notes.
  destruct (find_start t) as [[[fret string] scale_notes]|e]; [|done].
  destruct (assign_notes_ok scale_notes (notes t) fret (notes_cache t))
    as (to_play & cache' & ->). eauto.
Qed.

(** X5.  In a run of [generate_notes] on a new object every triple is a
    position that sounds its pitch, on a string from 1 to 6 at a fret
    from 1 to 22, except the triples of the pitches that the table gives
    no fret on any string: those are [(pitch, 999, 999)]. *)
Theorem generate_notes_playable `{Music21} ns k to_play t' n s f
    (r : list (Z * option Z)) :
  generate_notes (Tabs_init ns k) = (Ok to_play, t') →
  (n, s, f) ∈ to_play →
  NOTE_TO_STRING !! n = Some r →
  (∃ sz fz, s = Some sz ∧ f = Some fz ∧ reachable r sz fz ∧
            1 ≤ sz ≤ 6 ∧ 1 ≤ fz ≤ 22) ∨
  (unreachable r ∧ s = Some 999 ∧ f = Some 999).
Proof.
  intros (fret & string & sc & cache' & Hfs & Hrun & _)%generate_notes_inv
         Hin Hr.
  cbn [notes notes_cache Tabs_init] in Hrun.
  apply find_start_fret in Hfs.
  assert (Hc : cache_playable ∅).
  { intros m p r' Hm. by rewrite lookup_empty in Hm. }
  assert (Hfr : 0 ≤ fret ≤ 999) by lia.
  destruct (assign_notes_playable _ _ _ _ _ _ Hfr Hc Hrun _ _ _ _ Hin Hr)
    as [(sz & fz & -> & -> & Hre)|Hu]; [left | by right].
  exists sz, fz. repeat split; try apply Hre.
  all: destruct Hre as [Hre _].
  all: pose proof (NOTE_TO_STRING_strings _ _ _ _ Hr Hre).
  all: pose proof (NOTE_TO_STRING_frets _ _ _ _ Hr Hre); lia.
Qed.

Lemma generate_notes_playable_witness :
  (∃ sz fz, Some 2 = Some sz ∧ Some 6 = Some fz ∧
            reachable (mk_row (Some 1) (Some 6) (Some 10) (Some 15) (Some 20) None)
              sz fz ∧
            1 ≤ sz ≤ 6 ∧ 1 ≤ fz ≤ 22) ∨
  (unreachable (mk_row (Some 1) (Some 6) (Some 10) (Some 15) (Some 20) None) ∧
   Some 2 = Some 999 ∧ Some 6 = Some 999).
Proof.
  refine (generate_notes_playable (H := tonic_first)
            (played ["C4"; "F4"]) c_major
            [("C4", Some 3, Some 5); ("F4", Some 2, Some 6)]
            (@generate_notes tonic_first
               (Tabs_init (played ["C4"; "F4"]) c_major)).2
            "F4" (Some 2) (Some 6)
            (mk_row (Some 1) (Some 6) (Some 10) (Some 15) (Some 20) None) _ _ _).
  - vm_compute; reflexivity.
  - right; left.
  - vm_compute; reflexivity.
Defined.



(** ** Strings and indices *)

Lemma str_app_nil_l s : "" +:+ s = s.
Proof. reflexivity. Qed.

Lemma str_app_cons c a b : String c a +:+ b = String c (a +:+ b).
Proof. reflexivity. Qed.

Lemma str_app_nil_r s : s +:+ "" = s.
Proof.
  induction s as [|c s IH]; [done|]. by rewrite str_app_cons, IH.
Qed.

Lemma str_app_assoc a b c : (a +:+ b) +:+ c = a +:+ (b +:+ c).
Proof.
  induction a as [|x a IH]; [done|]. by rewrite !str_app_cons, IH.
Qed.

Lemma str_repeat_0 c n : n ≤ 0 → str_repeat c n = "".
Proof. intros Hn. unfold str_repeat. by replace (Z.to_nat n) with 0%nat by lia. Qed.

Lemma str_repeat_add c a b :
  0 ≤ a → 0 ≤ b → str_repeat c a +:+ str_repeat c b = str_repeat c (a + b).
Proof.
  intros Ha Hb. unfold str_repeat. rewrite Z2Nat.inj_add by done.
  induction (Z.to_nat a) as [|k IH]; [done|].
  change (Nat.iter (S k + Z.to_nat b) (String c) "")
    with (String c (Nat.iter (k + Z.to_nat b) (String c) "")).
  change (Nat.iter (S k) (String c) "")
    with (String c (Nat.iter k (String c) "")).
  by rewrite str_app_cons, IH.
Qed.

Lemma len_nonneg s : 0 ≤ len s.
Proof. unfold len. lia. Qed.

Lemma max_len_nonneg fretboard : 0 ≤ max_len fretboard.
Proof.
  induction fretboard as [|s fretboard IH]; [done|].
  cbn [max_len foldr]. fold (max_len fretboard). lia.
Qed.

Lemma max_len_cons s fretboard :
  max_len (s :: fretboard) = Z.max (len s) (max_len fretboard).
Proof. reflexivity. Qed.

(** An index in range reads and writes the place [py_pos] gives it. *)
Lemma list_index_pos {A : Type} (l : list A) i x :
  - Z.of_nat (length l) ≤ i < Z.of_nat (length l) →
  l !! py_pos (length l) i = Some x →
  list_index l i = Ok x.
Proof.
  intros Hi Hx. unfold list_index, py_pos in *.
  destruct (Z.ltb_spec i 0).
  - destruct (Z.ltb_spec (i + Z.of_nat (length l)) 0); [lia|].
    destruct (Z.leb_spec (Z.of_nat (length l)) (i + Z.of_nat (length l)));
      [lia|]. cbn [orb]. by rewrite Hx.
  - destruct (Z.ltb_spec i 0); [lia|].
    destruct (Z.leb_spec (Z.of_nat (length l)) i); [lia|].
    cbn [orb]. by rewrite Hx.
Qed.

Lemma list_assign_pos {A : Type} (l : list A) i x :
  - Z.of_nat (length l) ≤ i < Z.of_nat (length l) →
  list_assign l i x = Ok (<[py_pos (length l) i := x]> l).
Proof.
  intros Hi. unfold list_assign, py_pos.
  destruct (Z.ltb_spec i 0).
  - destruct (Z.ltb_spec (i + Z.of_nat (length l)) 0); [lia|].
    by destruct (Z.leb_spec (Z.of_nat (length l)) (i + Z.of_nat (length l)));
      [lia|].
  - destruct (Z.ltb_spec i 0); [lia|].
    by destruct (Z.leb_spec (Z.of_nat (length l)) i); [lia|].
Qed.

Lemma py_pos_lt n i :
  - Z.of_nat n ≤ i < Z.of_nat n → (py_pos n i < n)%nat.
Proof. intros Hi. unfold py_pos. destruct (Z.ltb_spec i 0); lia. Qed.

Lemma list_index_out {A : Type} (l : list A) i :
  i < - Z.of_nat (length l) ∨ Z.of_nat (length l) ≤ i →
  list_index l i = Raise IndexError.
Proof.
  intros Hi. unfold list_index.
  destruct (Z.ltb_spec i 0).
  - destruct (Z.ltb_spec (i + Z.of_nat (length l)) 0); [done | lia].
  - destruct (Z.ltb_spec i 0); [lia|].
    destruct (Z.leb_spec (Z.of_nat (length l)) i); [done | lia].
Qed.

Lemma max_len_insert_ge fretboard j x :
  (j < length fretboard)%nat → max_len fretboard ≤ len x →
  max_len (<[j := x]> fretboard) = len x.
Proof.
  revert j. induction fretboard as [|s fretboard IH]; intros j Hj Hx;
    [cbn [length] in Hj; lia|].
  rewrite max_len_cons in Hx. pose proof (max_len_nonneg fretboard).
  destruct j as [|j]; cbn [list_insert insert]; rewrite max_len_cons.
  - lia.
  - cbn [length] in Hj. rewrite IH by lia. lia.
Qed.

(** ** The columns of the tab *)

(** The inner loop of [render] pads the string of the note to the length
    of the longest string, and changes no other. *)
Lemma align_go fretboard i target m :
  - Z.of_nat (length fretboard) ≤ i < Z.of_nat (length fretboard) →
  fretboard !! py_pos (length fretboard) i = Some target →
  ∀ a P, (a + m = length fretboard)%nat → len target ≤ P →
    align (seq a m) i
      (<[py_pos (length fretboard) i :=
           target +:+ str_repeat TAB_LINE_CHAR (P - len target)]> fretboard)
    = Ok (<[py_pos (length fretboard) i :=
              target +:+ str_repeat TAB_LINE_CHAR
                (Z.max P (max_len (drop a fretboard)) - len target)]> fretboard).
Proof.
  intros Hi Ht. set (j := py_pos (length fretboard) i) in *.
  assert (Hj : (j < length fretboard)%nat) by by apply py_pos_lt.
  induction m as [|m IH]; intros a P Ham HP.
  - cbn [seq align]. rewrite drop_ge by lia.
    pose proof (len_nonneg target). change (max_len []) with 0.
    rewrite Z.max_l by lia. reflexivity.
  - cbn [seq align].
    set (cur := <[j := target +:+ str_repeat TAB_LINE_CHAR (P - len target)]>
                  fretboard).
    assert (Hlen : length cur = length fretboard) by apply length_insert.
    assert (Hcur : cur !! j
                   = Some (target +:+ str_repeat TAB_LINE_CHAR (P - len target)))
      by by apply list_lookup_insert_eq.
    assert (HlenT : len (target +:+ str_repeat TAB_LINE_CHAR (P - len target))
                    = P).
    { rewrite len_app, len_str_repeat. lia. }
    destruct (fretboard !! a) as [sa|] eqn:Ha;
      [|apply lookup_ge_None in Ha; lia].
    rewrite (drop_S _ _ _ Ha), max_len_cons.
    rewrite (list_index_pos cur i
               (target +:+ str_repeat TAB_LINE_CHAR (P - len target)));
      [|by rewrite Hlen|by rewrite Hlen].
    cbn [res_bind]. rewrite HlenT.
    destruct (decide (a = j)) as [->|Hne].
    + rewrite Hcur, HlenT. rewrite Ht in Ha. injection Ha as <-.
      destruct (Z.ltb_spec P P); [lia|]. unfold cur.
      rewrite (IH (S j) P) by lia.
      by replace (Z.max P (Z.max (len target) (max_len (drop (S j) fretboard))))
        with (Z.max P (max_len (drop (S j) fretboard))) by lia.
    + unfold cur at 1. rewrite list_lookup_insert_ne by done. rewrite Ha.
      destruct (Z.ltb_spec P (len sa)).
      * rewrite list_assign_pos by (by rewrite Hlen). cbn [res_bind].
        rewrite Hlen. fold j. unfold cur. rewrite list_insert_insert_eq.
        rewrite str_app_assoc, str_repeat_add by lia.
        replace (P - len target + (len sa - P)) with (len sa - len target)
          by lia.
        rewrite (IH (S a) (len sa)) by lia.
        by replace (Z.max P (Z.max (len sa) (max_len (drop (S a) fretboard))))
          with (Z.max (len sa) (max_len (drop (S a) fretboard))) by lia.
      * unfold cur. rewrite (IH (S a) P) by lia.
        by replace (Z.max P (Z.max (len sa) (max_len (drop (S a) fretboard))))
          with (Z.max P (max_len (drop (S a) fretboard))) by lia.
Qed.

Lemma align_spec fretboard i target :
  - Z.of_nat (length fretboard) ≤ i < Z.of_nat (length fretboard) →
  fretboard !! py_pos (length fretboard) i = Some target →
  align (seq 0 (length fretboard)) i fretboard
  = Ok (<[py_pos (length fretboard) i :=
            target +:+ str_repeat TAB_LINE_CHAR
              (max_len fretboard - len target)]> fretboard).
Proof.
  intros Hi Ht.
  pose proof (align_go fretboard i target (length fretboard) Hi Ht 0%nat
                (len target) eq_refl (Z.le_refl _)) as H.
  rewrite Z.sub_diag, str_repeat_0, str_app_nil_r, list_insert_id in H
    by done.
  rewrite H, drop_0.
  assert (len target ≤ max_len fretboard).
  { apply max_len_ge. by eapply list_elem_of_lookup_2. }
  rewrite Z.max_r by lia. reflexivity.
Qed.

Lemma len_cons c s : len (String c s) = 1 + len s.
Proof. unfold len. cbn [String.length]. lia. Qed.

Lemma dashed_padded s k :
  dashed s → dashed (s +:+ str_repeat TAB_LINE_CHAR k).
Proof.
  intros [->|[s' ->]].
  - rewrite str_app_nil_l. unfold str_repeat.
    destruct (Z.to_nat k) as [|n]; [by left|]. right.
    by exists (Nat.iter n (String TAB_LINE_CHAR) "").
  - right. rewrite str_app_cons. eauto.
Qed.

Lemma dashed_note s fret :
  dashed s →
  ∃ s', s +:+ String TAB_LINE_CHAR (fret +:+ String TAB_LINE_CHAR "")
        = String TAB_LINE_CHAR s'.
Proof.
  intros [->|[s' ->]].
  - rewrite str_app_nil_l. eauto.
  - rewrite str_app_cons. eauto.
Qed.

(** One note: its string is padded to the longest and gets a dash, the
    digits of the fret and a dash; the tab grows by that much. *)
Lemma place_note n s f fretboard :
  length fretboard = 6%nat → -5 ≤ s ≤ 6 → Forall dashed fretboard →
  ∃ fretboard',
    place [(n, Some s, f)] fretboard = Ok fretboard' ∧
    (∀ rest, place ((n, Some s, f) :: rest) fretboard = place rest fretboard') ∧
    length fretboard' = 6%nat ∧
    max_len fretboard' = max_len fretboard + (2 + len (str_of f)) ∧
    Forall dashed fretboard'.
Proof.
  intros Hlen Hs Hd.
  assert (Hi : - Z.of_nat (length fretboard) ≤ s - 1
               < Z.of_nat (length fretboard)) by lia.
  pose proof (py_pos_lt _ _ Hi) as Hj.
  set (j := py_pos (length fretboard) (s - 1)) in *.
  destruct (fretboard !! j) as [target|] eqn:Ht;
    [|apply lookup_ge_None in Ht; lia].
  pose proof (align_spec fretboard (s - 1) target Hi Ht) as Ha. fold j in Ha.
  set (T := target +:+ str_repeat TAB_LINE_CHAR (max_len fretboard - len target))
    in *.
  assert (HT : len T = max_len fretboard).
  { unfold T. rewrite len_app, len_str_repeat.
    assert (len target ≤ max_len fretboard)
      by (apply max_len_ge; by eapply list_elem_of_lookup_2). lia. }
  assert (HdT : dashed T).
  { apply dashed_padded. rewrite Forall_forall in Hd. apply Hd.
    by eapply list_elem_of_lookup_2. }
  set (X := T +:+ String TAB_LINE_CHAR (str_of f +:+ String TAB_LINE_CHAR "")).
  assert (HX : len X = max_len fretboard + (2 + len (str_of f))).
  { unfold X. rewrite len_app, HT, len_cons, len_app, len_cons.
    change (len "") with 0. lia. }
  assert (Hstep : ∀ rest, place ((n, Some s, f) :: rest) fretboard
                          = place rest (<[j := X]> fretboard)).
  { intros rest. cbn [place]. rewrite Ha. cbn [res_bind].
    assert (Hl1 : length (<[j := T]> fretboard) = length fretboard)
      by apply length_insert.
    rewrite (list_index_pos _ (s - 1) T);
      [|by rewrite Hl1 | rewrite Hl1; by apply list_lookup_insert_eq].
    cbn [res_bind]. rewrite list_assign_pos by (by rewrite Hl1).
    cbn [res_bind]. rewrite Hl1. fold j. fold X.
    by rewrite list_insert_insert_eq. }
  exists (<[j := X]> fretboard). split; [by rewrite Hstep|].
  split; [exact Hstep|]. split; [by rewrite length_insert|].
  split.
  - rewrite max_len_insert_ge by (pose proof (len_nonneg (str_of f)); lia).
    exact HX.
  - apply Forall_insert; [done|]. right. by apply dashed_note.
Qed.

(** The tab is as wide as the notes are: each note goes right of all that
    was placed before it. *)
Lemma place_spec notes_list fretboard :
  length fretboard = 6%nat → good_strings notes_list → Forall dashed fretboard →
  ∃ fretboard',
    place notes_list fretboard = Ok fretboard' ∧
    length fretboard' = 6%nat ∧
    max_len fretboard' = max_len fretboard + tab_width notes_list ∧
    Forall dashed fretboard'.
Proof.
  intros Hlen Hgood. revert fretboard Hlen.
  induction Hgood as [|[[n s] f] notes_list (s0 & Hs0 & Hr) _ IH];
    intros fretboard Hlen Hd.
  - exists fretboard. cbn [place tab_width foldr]. repeat split; (done || lia).
  - cbn [fst snd] in Hs0. subst s.
    destruct (place_note n s0 f fretboard Hlen Hr Hd)
      as (fb1 & _ & Hstep & Hlen1 & Hmax1 & Hd1).
    destruct (IH fb1 Hlen1 Hd1) as (fb' & Hp & Hlen' & Hmax' & Hd').
    exists fb'. rewrite Hstep. split; [done|]. split; [done|].
    split; [|done]. rewrite Hmax', Hmax1. cbn [tab_width foldr snd].
    fold (tab_width notes_list). lia.
Qed.

Lemma place_new notes_list :
  good_strings notes_list →
  ∃ fretboard,
    place notes_list (replicate (Z.to_nat GUITAR_STRING) "") = Ok fretboard ∧
    length fretboard = 6%nat ∧
    max_len fretboard = tab_width notes_list ∧
    Forall dashed fretboard.
Proof.
  intros Hgood.
  destruct (place_spec notes_list (replicate (Z.to_nat GUITAR_STRING) "")
              eq_refl Hgood) as (fb & Hp & Hlen & Hmax & Hd).
  - repeat constructor.
  - exists fb. by repeat split.
Qed.

Lemma tab_width_nonneg notes_list : 0 ≤ tab_width notes_list.
Proof.
  induction notes_list as [|t notes_list IH]; [done|].
  cbn [tab_width foldr]. fold (tab_width notes_list).
  pose proof (len_nonneg (str_of t.2)). lia.
Qed.

Lemma tab_width_pos notes_list : notes_list ≠ [] → 2 ≤ tab_width notes_list.
Proof.
  destruct notes_list as [|t notes_list]; [done|]. intros _.
  cbn [tab_width foldr]. fold (tab_width notes_list).
  pose proof (len_nonneg (str_of t.2)).
  pose proof (tab_width_nonneg notes_list). lia.
Qed.

Lemma get_lt n s :
  (n < String.length s)%nat → ∃ c, String.get n s = Some c.
Proof.
  revert n. induction s as [|c s IH]; intros n Hn; cbn [String.length] in Hn;
    [lia|].
  destruct n as [|n]; cbn [String.get]; [eauto|]. apply IH. lia.
Qed.

Lemma str_index_ok s i : 0 ≤ i < len s → ∃ c, str_index s i = Ok c.
Proof.
  intros Hi. unfold str_index.
  destruct (Z.ltb_spec i 0); [lia|]. destruct (Z.ltb_spec i 0); [lia|].
  destruct (Z.leb_spec (len s) i); [lia|]. cbn [orb].
  destruct (get_lt (Z.to_nat i) s) as [c ->]; [unfold len in Hi; lia | eauto].
Qed.

(** The search for the break point raises nothing when the strings are
    six columns longer than where it starts, and moves by six at most. *)
Lemma find_break_ok fretboard break_point L :
  Forall (fun s => len s = L) fretboard → 0 ≤ break_point →
  break_point + Z.of_nat (length fretboard) ≤ L →
  ∃ bp, find_break fretboard break_point = Ok bp ∧
        break_point ≤ bp ≤ break_point + Z.of_nat (length fretboard).
Proof.
  intros Hall. revert break_point.
  induction Hall as [|s fretboard Hs _ IH]; intros b Hb HL.
  - exists b. cbn. split; [done | lia].
  - cbn [find_break length] in *.
    destruct (str_index_ok s b) as [c ->]; [lia|]. cbn [res_bind].
    destruct (negb _).
    + destruct (IH (b + 1)) as (bp & -> & Hbp); [lia | lia |].
      exists bp. split; [done | lia].
    + destruct (IH b) as (bp & -> & Hbp); [lia | lia |].
      exists bp. split; [done | lia].
Qed.

Lemma pad_all_lens fretboard :
  Forall (fun s => len s = max_len fretboard) (pad_all fretboard).
Proof. apply Forall_forall. intros s. apply pad_all_len. Qed.

(** X6.  [render] raises [IndexError] on every list of notes, with string
    numbers it accepts, whose tab (a dash, the digits of the fret and a
    dash for each note) is not wider than [staff_length]; on the empty list
    for one. *)
Theorem render_narrow_tab_raises fuel notes_list staff_length :
  good_strings notes_list →
  tab_width notes_list ≤ staff_length →
  render fuel notes_list (Some staff_length) = Some (Raise IndexError).
Proof.
  intros Hgood Hw.
  destruct (place_new notes_list Hgood) as (fb & Hp & _ & Hmax & _).
  apply (render_short_tab_raises fuel notes_list staff_length fb Hp). lia.
Qed.

Lemma render_narrow_tab_raises_witness :
  render 100 [("C4", Some 3, Some 5); ("F4", Some 2, Some 6)] (Some 8)
  = Some (Raise IndexError).
Proof.
  refine (render_narrow_tab_raises 100
            [("C4", Some 3, Some 5); ("F4", Some 2, Some 6)] 8 _ _).
  - repeat constructor; eexists; (split; [reflexivity | lia]).
  - vm_compute. discriminate.
Defined.

(** X7.  [render] returns, given fuel enough, when [staff_length] is
    positive and the tab is at least six columns wider than it. *)
Theorem render_wide_tab_returns notes_list staff_length :
  good_strings notes_list →
  0 < staff_length →
  staff_length + 6 ≤ tab_width notes_list →
  ∃ fuel lines,
    render fuel notes_list (Some staff_length) = Some (Ok lines).
Proof.
  intros Hgood Hpos Hw.
  destruct (place_new notes_list Hgood) as (fb & Hp & Hlen & Hmax & _).
  destruct (find_break_ok (pad_all fb) staff_length (max_len fb)
              (pad_all_lens fb)) as (bp & Hbp & _); [lia | |].
  { unfold pad_all. rewrite length_map, Hlen. lia. }
  by eapply render_returns.
Qed.

Lemma render_wide_tab_returns_witness :
  ∃ fuel lines,
    render fuel [("C4", Some 3, Some 5); ("F4", Some 2, Some 6);
                 ("C4", Some 3, Some 5)] (Some 3)
    = Some (Ok lines).
Proof.
  refine (render_wide_tab_returns
            [("C4", Some 3, Some 5); ("F4", Some 2, Some 6);
             ("C4", Some 3, Some 5)] 3 _ _ _).
  - repeat constructor; eexists; (split; [reflexivity | lia]).
  - lia.
  - vm_compute. discriminate.
Defined.

Lemma str_index_head c s : str_index (String c s) 0 = Ok c.
Proof.
  unfold str_index. rewrite len_cons. pose proof (len_nonneg s).
  destruct (Z.ltb_spec 0 0); [lia|]. destruct (Z.ltb_spec 0 0); [lia|].
  destruct (Z.leb_spec (1 + len s) 0); [lia | done].
Qed.

Lemma find_break_dashes fretboard :
  Forall (fun s => ∃ s', s = String TAB_LINE_CHAR s') fretboard →
  find_break fretboard 0 = Ok 0.
Proof.
  induction 1 as [|s fretboard [s' ->] _ IH]; [done|].
  cbn [find_break]. rewrite str_index_head. cbn [res_bind].
  by rewrite Ascii.eqb_refl.
Qed.

(** With a step of 0 the [while True] loop does not reach its [break]. *)
Lemma emit_zero fretboard :
  length fretboard = 6%nat →
  ∀ fuel string_idx output,
    0 ≤ string_idx < 6 →
    emit fuel fretboard 0 0 string_idx 0 0 output = None.
Proof.
  intros Hlen. induction fuel as [|fuel IH]; intros string_idx output Hidx;
    [done|].
  cbn [emit].
  destruct (list_index_ok fretboard string_idx) as (s & -> & _); [lia|].
  rewrite andb_false_r.
  destruct (block_ok 0 fretboard 0 0) as [lines ->]; [lia | lia |].
  change (0 + 0) with 0. apply IH.
  unfold GUITAR_STRING. apply Z.mod_pos_bound. lia.
Qed.

(** X8.  With [staff_length=0], [render] on a list of notes that is not
    empty does not return: every string of the tab begins with a dash,
    the break point stays 0, and the loop that writes the lines goes on
    writing empty slices. *)
Theorem render_zero_never_returns fuel notes_list :
  good_strings notes_list →
  notes_list ≠ [] →
  render fuel notes_list (Some 0) = None.
Proof.
  intros Hgood Hne.
  destruct (place_new notes_list Hgood) as (fb & Hp & Hlen & Hmax & Hd).
  pose proof (tab_width_pos notes_list Hne) as Hw.
  unfold render. cbn [default from_option id]. rewrite Hp.
  assert (Hpad : Forall (fun s => ∃ s', s = String TAB_LINE_CHAR s')
                   (pad_all fb)).
  { unfold pad_all. apply Forall_fmap, Forall_forall. intros s Hs. cbn.
    rewrite Forall_forall in Hd. destruct (Hd s Hs) as [->|[s' ->]].
    - rewrite str_app_nil_l. unfold str_repeat.
      change (len "") with 0.
      destruct (Z.to_nat (max_len fb - 0)) as [|k] eqn:Hk; [lia|].
      by exists (Nat.iter k (String TAB_LINE_CHAR) "").
    - rewrite str_app_cons. eauto. }
  rewrite (find_break_dashes _ Hpad).
  apply emit_zero; [|lia]. unfold pad_all. by rewrite length_map.
Qed.

Lemma render_zero_never_returns_witness :
  render 1000 [("C4", Some 3, Some 5)] (Some 0) = None.
Proof.
  refine (render_zero_never_returns 1000 [("C4", Some 3, Some 5)] _ _).
  - repeat constructor; eexists; (split; [reflexivity | lia]).
  - discriminate.
Defined.

(** ** From the notes to the lines *)

Lemma place_out_of_range n s f rest fretboard :
  length fretboard = 6%nat → s < -5 ∨ 6 < s →
  place ((n, Some s, f) :: rest) fretboard = Raise IndexError.
Proof.
  intros Hlen Hs. cbn [place]. rewrite Hlen. cbn [seq align].
  destruct fretboard as [|s0 fretboard]; [done|]. cbn [lookup list_lookup].
  rewrite list_index_out by (rewrite Hlen; lia). done.
Qed.

(** A triple with string 999 among triples with strings from 1 to 6
    stops the loop over the triples with an [IndexError]. *)
Lemma place_sentinel notes_list fretboard :
  length fretboard = 6%nat → Forall dashed fretboard →
  Forall (fun t => ∃ s, t.1.2 = Some s ∧ (-5 ≤ s ≤ 6 ∨ s = 999)) notes_list →
  Exists (fun t => t.1.2 = Some 999) notes_list →
  place notes_list fretboard = Raise IndexError.
Proof.
  intros Hlen Hd Hall. revert fretboard Hlen Hd.
  induction Hall as [|[[n s] f] notes_list (s0 & Hs0 & Hr) _ IH];
    intros fretboard Hlen Hd Hex; [by apply Exists_nil in Hex|].
  cbn [fst snd] in Hs0. subst s. destruct Hr as [Hr| ->].
  - destruct (place_note n s0 f fretboard Hlen Hr Hd)
      as (fb1 & _ & Hstep & Hlen1 & _ & Hd1).
    rewrite Hstep. apply IH; [done | done |].
    apply Exists_cons in Hex as [Hex|Hex]; [|done].
    cbn [fst snd] in Hex. injection Hex as ->. lia.
  - apply place_out_of_range; [done | lia].
Qed.

Lemma reachable_not_unreachable (r : list (Z * option Z)) s f :
  reachable r s f → ¬ unreachable r.
Proof.
  intros [Hin Hnz] Hu. unfold unreachable in Hu. rewrite Forall_forall in Hu.
  specialize (Hu _ Hin). cbn [snd truthy] in Hu.
  by destruct (Z.eqb_spec f 0).
Qed.

(** An unreachable pitch among the notes of a run from an empty cache
    makes the loop of [render] over the triples raise [IndexError]. *)
Lemma assign_notes_then_place scale_notes ns fret to_play cache' n
    (r : list (Z * option Z)) :
  0 ≤ fret ≤ 999 →
  assign_notes scale_notes ns (Some fret) ∅ = (Ok to_play, cache') →
  n ∈ ns →
  NOTE_TO_STRING !! note n = Some r →
  unreachable r →
  place to_play (replicate (Z.to_nat GUITAR_STRING) "") = Raise IndexError.
Proof.
  intros Hfr Hrun Hn Hr Hu.
  assert (Hc : cache_playable ∅).
  { intros m p r' Hm. by rewrite lookup_empty in Hm. }
  pose proof (assign_notes_playable _ _ _ _ _ _ Hfr Hc Hrun) as Hplay.
  pose proof (assign_notes_pitches _ _ _ _ _ _ Hrun) as Hpitch.
  assert (Hall : Forall (fun t => ∃ s, t.1.2 = Some s ∧ (-5 ≤ s ≤ 6 ∨ s = 999))
                   to_play).
  { apply Forall_forall. intros [[m s] f] Hin. cbn [fst snd].
    assert (Hm : m ∈ to_play.*1.*1).
    { apply list_elem_of_fmap. exists (m, s). split; [done|].
      apply list_elem_of_fmap. by exists (m, s, f). }
    rewrite Hpitch in Hm. apply list_elem_of_filter in Hm as [[rm Hrm] _].
    destruct (Hplay _ _ _ _ Hin Hrm) as [(sz & fz & -> & -> & [Hre _])|(_ & -> & _)].
    - exists sz. split; [done|]. left.
      pose proof (NOTE_TO_STRING_strings _ _ _ _ Hrm Hre). lia.
    - exists 999. split; [done | by right]. }
  assert (Hex : Exists (fun t => t.1.2 = Some 999) to_play).
  { assert (Hm : note n ∈ to_play.*1.*1).
    { rewrite Hpitch. apply list_elem_of_filter. split; [by rewrite Hr; eauto|].
      by apply list_elem_of_fmap_2. }
    apply list_elem_of_fmap in Hm as ([m s] & Hms & Hin).
    apply list_elem_of_fmap in Hin as ([[m' s'] f] & [= <- <-] & Hin).
    cbn [fst] in Hms. subst m.
    apply Exists_exists. exists (note n, s, f). split; [done|]. cbn [fst snd].
    destruct (Hplay _ _ _ _ Hin Hr) as [(sz & fz & _ & _ & Hre)|(_ & -> & _)];
      [|done].
    by destruct (reachable_not_unreachable _ _ _ Hre). }
  apply place_sentinel; [done | | done | done]. repeat constructor.
Qed.

(** X9.  When one of the notes has a pitch that is in [NOTE_TO_STRING]
    with no fret on any string, as E2, the open sixth string, has,
    [render] raises [IndexError] on what [generate_notes] returns for a
    new object: the triple of that note has the string number 999. *)
Theorem render_unreachable_pitch_raises `{Music21} ns k to_play t' n
    (r : list (Z * option Z)) fuel staff_length :
  generate_notes (Tabs_init ns k) = (Ok to_play, t') →
  n ∈ ns →
  NOTE_TO_STRING !! note n = Some r →
  unreachable r →
  render fuel to_play staff_length = Some (Raise IndexError).
Proof.
  intros (fret & string & sc & cache' & Hfs & Hrun & _)%generate_notes_inv
         Hn Hr Hu.
  cbn [notes notes_cache Tabs_init] in Hrun.
  apply find_start_fret in Hfs.
  assert (Hfr : 0 ≤ fret ≤ 999) by lia.
  unfold render.
  by rewrite (assign_notes_then_place _ _ _ _ _ _ _ Hfr Hrun Hn Hr Hu).
Qed.

Lemma render_unreachable_pitch_raises_witness :
  render 100 [("C4", Some 3, Some 5); ("E2", Some 999, Some 999)] (Some 2)
  = Some (Raise IndexError).
Proof.
  refine (render_unreachable_pitch_raises (H := tonic_first)
            (played ["C4"; "E2"]) c_major
            [("C4", Some 3, Some 5); ("E2", Some 999, Some 999)]
            (@generate_notes tonic_first
               (Tabs_init (played ["C4"; "E2"]) c_major)).2
            {| note := "E2"; time := 0 |}
            (mk_row None None None None None None) 100 (Some 2) _ _ _ _).
  - vm_compute; reflexivity.
  - right; left.
  - vm_compute; reflexivity.
  - repeat constructor.
Defined.

(** ** The blocks of lines *)

Lemma substring_app n m1 m2 s :
  String.substring n (m1 + m2) s
  = String.substring n m1 s +:+ String.substring (n + m1) m2 s.
Proof.
  revert n m1. induction s as [|c s IH]; intros n m1.
  - destruct n, m1, m2; reflexivity.
  - destruct n as [|n].
    + destruct m1 as [|m1]; [reflexivity|].
      cbn [Nat.add String.substring]. rewrite str_app_cons. f_equal.
      apply (IH 0%nat m1).
    + cbn [Nat.add String.substring]. apply IH.
Qed.

Lemma substring_all m s :
  (String.length s ≤ m)%nat → String.substring 0 m s = s.
Proof.
  revert m. induction s as [|c s IH]; intros m Hm.
  - by destruct m.
  - cbn [String.length] in Hm. destruct m as [|m]; [lia|].
    cbn [String.substring]. f_equal. apply IH. lia.
Qed.

Lemma substring_some n m s :
  (n < String.length s)%nat → (0 < m)%nat → String.substring n m s ≠ "".
Proof.
  revert n. induction s as [|c s IH]; intros n Hn Hm;
    cbn [String.length] in Hn; [lia|].
  destruct n as [|n]; cbn [String.substring].
  - destruct m; [lia | done].
  - apply IH; lia.
Qed.

(** Two slices that meet make the slice of the whole. *)
Lemma str_slice_app s a b c :
  0 ≤ a ≤ b → b ≤ c →
  str_slice s a b +:+ str_slice s b c = str_slice s a c.
Proof.
  intros Hab Hbc. unfold str_slice, slice_bound. pose proof (len_nonneg s).
  destruct (Z.ltb_spec a 0); [lia|]. destruct (Z.ltb_spec b 0); [lia|].
  destruct (Z.ltb_spec c 0); [lia|].
  replace (Z.to_nat (Z.min c (len s) - Z.min a (len s)))
    with (Z.to_nat (Z.min b (len s) - Z.min a (len s))
          + Z.to_nat (Z.min c (len s) - Z.min b (len s)))%nat by lia.
  rewrite substring_app. do 2 f_equal. lia.
Qed.

Lemma str_slice_all s c : len s ≤ c → str_slice s 0 c = s.
Proof.
  intros Hc. unfold str_slice, slice_bound. pose proof (len_nonneg s).
  destruct (Z.ltb_spec 0 0); [lia|]. destruct (Z.ltb_spec c 0); [lia|].
  replace (Z.to_nat (Z.min 0 (len s))) with 0%nat by lia.
  apply substring_all. unfold len in *. lia.
Qed.

Lemma str_from_empty s start :
  0 ≤ start → str_from s start = "" → len s ≤ start.
Proof.
  intros Hs He. destruct (Z.le_gt_cases (len s) start) as [|Hlt]; [done|].
  exfalso. revert He. unfold str_from, str_slice, slice_bound.
  destruct (Z.ltb_spec start 0); [lia|].
  destruct (Z.ltb_spec (len s) 0); [lia|].
  apply substring_some; unfold len in *; lia.
Qed.

Lemma str_concat_snoc l x : str_concat (l ++ [x]) = str_concat l +:+ x.
Proof.
  induction l as [|y l IH]; cbn [app str_concat foldr].
  - by rewrite str_app_nil_r.
  - fold (str_concat (l ++ [x])). fold (str_concat l).
    by rewrite IH, str_app_assoc.
Qed.

(** The slices of the blocks, put together, are the string from its
    beginning to the end of the last block. *)
Lemma slices_concat s bp K :
  0 ≤ bp → str_concat (slices s bp K) = str_slice s 0 (Z.of_nat K * bp).
Proof.
  intros Hbp. induction K as [|K IH].
  - change (Z.of_nat 0 * bp) with 0. unfold slices.
    cbn [seq map str_concat foldr].
    unfold str_slice, slice_bound. pose proof (len_nonneg s).
    destruct (Z.ltb_spec 0 0); [lia|].
    replace (Z.to_nat (Z.min 0 (len s) - Z.min 0 (len s))) with 0%nat by lia.
    by rewrite substring_none.
  - unfold slices in *. rewrite seq_S, map_app. cbn [map Nat.add].
    rewrite str_concat_snoc, IH. apply str_slice_app; nia.
Qed.

Lemma block_labelled_go labels idx fretboard start stop :
  (∀ k label, labels !! k = Some label →
              GUITAR_STAFF !! (idx + Z.of_nat k) = Some label) →
  (length fretboard ≤ length labels)%nat →
  block idx fretboard start stop
  = Ok (zip_with (fun label s => label +:+ str_slice s start stop)
          labels fretboard).
Proof.
  revert labels idx. induction fretboard as [|s fretboard IH];
    intros labels idx Hl Hlen.
  - cbn [block]. by destruct labels.
  - destruct labels as [|label labels]; [cbn [length] in Hlen; lia|].
    cbn [block zip_with]. unfold dict_item.
    pose proof (Hl 0%nat label eq_refl) as H0. cbn [Z.of_nat] in H0.
    rewrite Z.add_0_r in H0. rewrite H0. cbn [res_bind]. rewrite (IH labels (idx + 1)).
    + done.
    + intros k l Hk. replace (idx + 1 + Z.of_nat k)
        with (idx + Z.of_nat (S k)) by lia. by apply Hl.
    + cbn [length] in Hlen. lia.
Qed.

Lemma block_labelled fretboard start stop :
  (length fretboard ≤ 6)%nat →
  block 0 fretboard start stop = Ok (labelled fretboard start stop).
Proof.
  intros Hlen. apply block_labelled_go; [|done].
  intros k label Hk.
  do 6 (destruct k as [|k]; [injection Hk as <-; vm_compute; reflexivity|]).
  done.
Qed.

(** What the [while True] loop has written when it reaches its [break]:
    whole blocks, up to one that begins past the end of the strings. *)
Lemma emit_blocks fretboard staff_length bp L :
  length fretboard = 6%nat → 0 < bp →
  Forall (fun s => len s = L) fretboard →
  ∀ fuel string_idx (k0 : nat) output lines,
    0 ≤ string_idx < 6 →
    emit fuel fretboard staff_length bp string_idx
      (Z.of_nat k0 * bp) (Z.of_nat (S k0) * bp) output = Some (Ok lines) →
    ∃ K : nat,
      lines = output ++ blocks fretboard bp k0 K ∧
      L ≤ Z.of_nat (k0 + K) * bp ∧
      staff_length < Z.of_nat (k0 + K) * bp.
Proof.
  intros Hlen Hbp Hall.
  induction fuel as [|fuel IH]; intros string_idx k0 output lines Hidx;
    [done|].
  cbn [emit].
  destruct (list_index_ok fretboard string_idx) as (s & -> & Hs); [lia|].
  rewrite Forall_forall in Hall. pose proof (Hall _ Hs) as HsL.
  destruct (bool_decide _ && _) eqn:Hbreak.
  - intros [= <-]. exists 0%nat.
    apply andb_true_iff in Hbreak as [He Hlt].
    apply bool_decide_eq_true in He. apply Z.ltb_lt in Hlt.
    apply str_from_empty in He; [|nia].
    rewrite Nat.add_0_r. unfold blocks. cbn [seq map concat].
    rewrite app_nil_r. repeat split; lia.
  - rewrite block_labelled by lia.
    replace (Z.of_nat (S k0) * bp + bp) with (Z.of_nat (S (S k0)) * bp) by lia.
    intros (K & -> & HL & Hsl)%IH;
      [|unfold GUITAR_STRING; apply Z.mod_pos_bound; lia].
    exists (S K). rewrite <- !app_assoc.
    replace (k0 + S K)%nat with (S k0 + K)%nat by lia.
    repeat split; [|done|done].
    unfold blocks. cbn [seq map concat]. by rewrite <- !app_assoc.
Qed.

Lemma find_break_le fretboard break_point bp :
  find_break fretboard break_point = Ok bp →
  bp ≤ break_point + Z.of_nat (length fretboard).
Proof.
  revert break_point. induction fretboard as [|s fretboard IH]; intros b.
  - intros [= <-]. cbn [length]. lia.
  - cbn [find_break length]. destruct (str_index s b) as [c|e]; [|done].
    cbn [res_bind]. destruct (negb _); intros H%IH; lia.
Qed.

(** X10.  The lines that [render] returns, for a positive [staff_length],
    are blocks of six lines and an empty line, all blocks of the same
    width, from [staff_length] to [staff_length + 6]; a line is the name
    of its string, E, A, D, G, B or E, and the slice of the string for the
    block; and the slices of a string, put together in the order of the
    blocks, are the whole padded string: no column of the tab is lost or
    written twice, and the six strings have one length. *)
Theorem render_blocks fuel notes_list staff_length lines :
  0 < staff_length →
  render fuel notes_list (Some staff_length) = Some (Ok lines) →
  ∃ fretboard bp K,
    place notes_list (replicate (Z.to_nat GUITAR_STRING) "") = Ok fretboard ∧
    staff_length ≤ bp ≤ staff_length + 6 ∧
    lines = blocks (pad_all fretboard) bp 0 K ∧
    ∀ s, s ∈ pad_all fretboard →
         len s = max_len fretboard ∧ str_concat (slices s bp K) = s.
Proof.
  intros Hpos. unfold render. cbn [default from_option id].
  destruct (place _ _) as [fb|e] eqn:Hp; [|done].
  destruct (find_break _ _) as [bp|e] eqn:Hb; [|done].
  intros Hemit. exists fb, bp.
  pose proof (place_length _ _ _ Hp) as Hlen. rewrite length_replicate in Hlen.
  assert (Hlen' : length (pad_all fb) = 6%nat).
  { unfold pad_all. by rewrite length_map. }
  pose proof (find_break_ge _ _ _ Hb) as Hge.
  pose proof (find_break_le _ _ _ Hb) as Hle. rewrite Hlen' in Hle.
  assert (Hemit' : emit fuel (pad_all fb) staff_length bp 0
                      (Z.of_nat 0 * bp) (Z.of_nat 1 * bp) []
                    = Some (Ok lines)).
  { replace (Z.of_nat 0 * bp) with 0 by lia.
    replace (Z.of_nat 1 * bp) with bp by lia. exact Hemit. }
  assert (Hbp : 0 < bp) by lia. assert (H06 : 0 ≤ 0 < 6) by lia.
  destruct (emit_blocks (pad_all fb) staff_length bp (max_len fb) Hlen'
              Hbp (pad_all_lens fb) fuel 0 0%nat [] lines H06 Hemit')
    as (K & -> & HL & _).
  exists K. split; [done|]. split; [lia|]. split; [done|].
  intros s Hs. apply pad_all_len in Hs. split; [done|].
  rewrite slices_concat by lia.
  apply str_slice_all. cbn [Nat.add] in HL. lia.
Qed.

Lemma render_blocks_witness :
  ∃ fretboard bp K,
    place [("C4", Some 3, Some 5)] (replicate (Z.to_nat GUITAR_STRING) "")
    = Ok fretboard ∧
    1 ≤ bp ≤ 1 + 6 ∧
    ["E--"; "A--"; "D-5"; "G--"; "B--"; "E--"; "";
     "E-"; "A-"; "D-"; "G-"; "B-"; "E-"; ""]
    = blocks (pad_all fretboard) bp 0 K ∧
    ∀ s, s ∈ pad_all fretboard →
         len s = max_len fretboard ∧ str_concat (slices s bp K) = s.
Proof.
  refine (render_blocks 3 [("C4", Some 3, Some 5)] 1 _ _ _).
  - lia.
  - vm_compute; reflexivity.
Defined.

(** ** From MIDI numbers to positions *)

Lemma first_reachable_spec (r : list (Z * option Z)) s f :
  first_reachable r = Some (s, f) → reachable r s f.
Proof.
  induction r as [|[s' e] r IH]; [done|]. cbn [first_reachable].
  assert (T : first_reachable r = Some (s, f) → reachable ((s', e) :: r) s f).
  { intros [Hin Hnz]%IH. split; [by right | done]. }
  destruct e as [f'|]; [|exact T].
  destruct (truthy (Some f')) eqn:Ht; [|exact T].
  intros [= -> ->]. split; [left|]. cbn [truthy] in Ht. by intros ->.
Qed.

Lemma first_reachable_None (r : list (Z * option Z)) :
  first_reachable r = None → unreachable r.
Proof.
  induction r as [|[s' e] r IH]; [constructor|]. cbn [first_reachable].
  destruct e as [f'|]; [|intros H; constructor; [done | by apply IH]].
  destruct (truthy (Some f')) eqn:Ht; [done|].
  intros H. constructor; [done | by apply IH].
Qed.

Lemma forallb_range (P : Z → bool) (lo : Z) (n : nat) m :
  forallb P (map (fun k => lo + Z.of_nat k) (seq 0 n)) = true →
  lo ≤ m < lo + Z.of_nat n → P m = true.
Proof.
  intros H Hm. rewrite forallb_forall in H. apply H.
  apply in_map_iff. exists (Z.to_nat (m - lo)). split; [lia|].
  apply in_seq. lia.
Qed.

(** X11.  Every MIDI note number from 42 to 86 (F#2 to D6) gets from
    [_midi_to_note] a name that is in [NOTE_TO_STRING] with a reachable
    position: the notes of this range are never dropped and never get
    the position [(999, 999)]. *)
Theorem midi_range_playable m :
  42 ≤ m ≤ 86 →
  ∃ name (r : list (Z * option Z)) s f,
    _midi_to_note m = Ok name ∧ NOTE_TO_STRING !! name = Some r ∧
    reachable r s f.
Proof.
  intros Hm.
  assert (H : playable_midi m = true).
  { apply (forallb_range playable_midi 42 45); [vm_compute; reflexivity | lia]. }
  unfold playable_midi in H.
  destruct (_midi_to_note m) as [name|e]; [|done].
  destruct (NOTE_TO_STRING !! name) as [r|] eqn:Hr; [|done].
  apply bool_decide_eq_true in H as [[s f] Hsf].
  exists name, r, s, f. split; [done|]. split; [done|].
  by apply first_reachable_spec.
Qed.

Lemma midi_range_playable_witness :
  ∃ name (r : list (Z * option Z)) s f,
    _midi_to_note 60 = Ok name ∧ NOTE_TO_STRING !! name = Some r ∧
    reachable r s f.
Proof. apply (midi_range_playable 60). lia. Defined.

(** The names of the MIDI notes 30 to 35 and 37 to 41 are in the table
    with no fret on any string. *)
Lemma midi_low_unplayable m :
  30 ≤ m ≤ 35 ∨ 37 ≤ m ≤ 41 →
  ∃ name (r : list (Z * option Z)),
    _midi_to_note m = Ok name ∧ NOTE_TO_STRING !! name = Some r ∧
    unreachable r.
Proof.
  intros Hm.
  assert (H : unplayable_midi m = true).
  { destruct Hm as [Hm|Hm].
    - apply (forallb_range unplayable_midi 30 6);
        [vm_compute; reflexivity | lia].
    - apply (forallb_range unplayable_midi 37 5);
        [vm_compute; reflexivity | lia]. }
  unfold unplayable_midi in H.
  destruct (_midi_to_note m) as [name|e]; [|done].
  destruct (NOTE_TO_STRING !! name) as [r|] eqn:Hr; [|done].
  apply bool_decide_eq_true in H.
  exists name, r. split; [done|]. split; [done|].
  by apply first_reachable_None.
Qed.

(** What [notes_played] returns, message by message. *)
Lemma notes_of_elem msgs ns m :
  notes_of msgs = Ok ns → m ∈ msgs →
  ∃ name, _midi_to_note (msg_note m) = Ok name ∧
          {| note := name; time := msg_time m |} ∈ ns.
Proof.
  revert ns. induction msgs as [|m' msgs IH]; intros ns H Hin;
    [by apply elem_of_nil in Hin|].
  cbn [notes_of] in H.
  destruct (_midi_to_note (msg_note m')) as [name'|e] eqn:Hn; [|done].
  cbn [res_bind] in H.
  destruct (notes_of msgs) as [rest|e]; [|done]. cbn [res_bind] in H.
  injection H as <-.
  apply elem_of_cons in Hin as [->|Hin].
  - exists name'. split; [done | left].
  - destruct (IH rest eq_refl Hin) as (name & Hname & Hel).
    exists name. split; [done | by right].
Qed.

(** X12.  A track with a note-on message for one of the MIDI notes 30 to
    35 or 37 to 41, E2 (40), the open sixth string, among them, cannot be
    rendered: [render] raises [IndexError] on what [generate_notes]
    returns for the notes of [notes_played]. *)
Theorem render_low_note_raises `{Music21} midi_data ns k to_play t' m
    fuel staff_length :
  notes_played midi_data = Ok ns →
  m ∈ midi_data → msg_type m = NOTE_ON →
  30 ≤ msg_note m ≤ 35 ∨ 37 ≤ msg_note m ≤ 41 →
  generate_notes (Tabs_init ns k) = (Ok to_play, t') →
  render fuel to_play staff_length = Some (Raise IndexError).
Proof.
  intros Hns Hm Hon Hlow
    (fret & string & sc & cache' & Hfs & Hrun & _)%generate_notes_inv.
  cbn [notes notes_cache Tabs_init] in Hrun.
  apply find_start_fret in Hfs.
  assert (Hfr : 0 ≤ fret ≤ 999) by lia.
  destruct (midi_low_unplayable _ Hlow) as (name & r & Hname & Hr & Hu).
  destruct (notes_of_elem (_on_note midi_data) ns m Hns) as (name' & Hname' & Hin).
  { unfold _on_note. by apply list_elem_of_filter. }
  rewrite Hname in Hname'. injection Hname' as <-.
  unfold render.
  by rewrite (assign_notes_then_place _ _ _ _ _
                {| note := name; time := msg_time m |} r Hfr Hrun Hin Hr Hu).
Qed.

Lemma render_low_note_raises_witness :
  render 100 [("C4", Some 3, Some 5); ("E2", Some 999, Some 999)] None
  = Some (Raise IndexError).
Proof.
  refine (render_low_note_raises (H := tonic_first)
            [ {| msg_type := "note_on"; msg_note := 60; msg_time := 0 |};
              {| msg_type := "note_off"; msg_note := 60; msg_time := 96 |};
              {| msg_type := "note_on"; msg_note := 40; msg_time := 0 |} ]
            (played ["C4"; "E2"]) c_major
            [("C4", Some 3, Some 5); ("E2", Some 999, Some 999)]
            (@generate_notes tonic_first
               (Tabs_init (played ["C4"; "E2"]) c_major)).2
            {| msg_type := "note_on"; msg_note := 40; msg_time := 0 |}
            100 None _ _ _ _ _).
  - vm_compute; reflexivity.
  - right; right; left.
  - reflexivity.
  - right. cbn. lia.
  - vm_compute; reflexivity.
Defined.

(** X13.  [notes_played] raises nothing on a track whose note-on messages
    have note numbers from 0 to 127: it returns one note for each note-on
    message, in their order, with the time of the message and the first
    name that [MIDI_TO_NOTES] has for its number. *)
Theorem notes_played_ok midi_data :
  Forall (fun m => msg_type m = NOTE_ON → 0 ≤ msg_note m ≤ 127) midi_data →
  ∃ ns,
    notes_played midi_data = Ok ns ∧
    Forall2 (fun n m => _midi_to_note (msg_note m) = Ok (note n) ∧
                        time n = msg_time m)
      ns (_on_note midi_data).
Proof.
  intros Hall. unfold notes_played.
  assert (Hon : Forall (fun m => 0 ≤ msg_note m ≤ 127) (_on_note midi_data)).
  { apply Forall_forall. intros m [Hty Hin]%list_elem_of_filter.
    rewrite Forall_forall in Hall. by apply Hall. }
  induction Hon as [|m msgs Hm _ IH]; [by exists []|].
  destruct IH as (ns & Hns & Hf2).
  assert (Hname : ∃ name, _midi_to_note (msg_note m) = Ok name).
  { pose proof (forallb_range
                  (fun k => match _midi_to_note k with
                            | Ok _ => true
                            | Raise _ => false
                            end) 0 128 (msg_note m)) as H.
    cbn beta in H.
    destruct (_midi_to_note (msg_note m)); [eauto|].
    discriminate H; [vm_compute; reflexivity | lia]. }
  destruct Hname as [name Hname].
  exists ({| note := name; time := msg_time m |} :: ns).
  cbn [notes_of]. rewrite Hname, Hns. cbn [res_bind].
  split; [done|]. by constructor.
Qed.

Lemma notes_played_ok_witness :
  ∃ ns,
    notes_played
      [ {| msg_type := "note_on"; msg_note := 60; msg_time := 0 |};
        {| msg_type := "note_off"; msg_note := 60; msg_time := 96 |} ] = Ok ns ∧
    Forall2 (fun n m => _midi_to_note (msg_note m) = Ok (note n) ∧
                        time n = msg_time m)
      ns
      (_on_note
         [ {| msg_type := "note_on"; msg_note := 60; msg_time := 0 |};
           {| msg_type := "note_off"; msg_note := 60; msg_time := 96 |} ]).
Proof.
  apply notes_played_ok. repeat constructor; cbn; lia.
Defined.

(** ** The two tables of the fretboard *)




Lemma fret_note_range s f name :
  fret_note s f = Some name → 1 ≤ s ≤ 6 ∧ 1 ≤ f ≤ 22.
Proof.
  unfold fret_note.
  destruct (Z.leb_spec 1 s), (Z.leb_spec 1 f); cbn [andb]; try done.
  destruct (FRET_NOTES !! Z.to_nat (s - 1)) as [names|] eqn:Hrow; [|done].
  intros Hn.
  assert (F : Forall (fun names : list string => length names = 22%nat)
                FRET_NOTES) by (repeat constructor).
  rewrite Forall_forall in F.
  pose proof (F _ (list_elem_of_lookup_2 _ _ _ Hrow)) as Hlen.
  apply lookup_lt_Some in Hrow. apply lookup_lt_Some in Hn.
  change (length FRET_NOTES) with 6%nat in Hrow. lia.
Qed.

(** X15.  Every position of [FRET_NOTES] but one is in the row that
    [NOTE_TO_STRING] has for its pitch.  The one is the first fret of the
    sixth string, F2: the dict display has the key ['F2'] twice and the
    second row, which is empty, is the one that stays. *)
Theorem chart_in_note_rows s f name :
  fret_note s f = Some name →
  name ≠ "F2" →
  ∃ r : list (Z * option Z),
    NOTE_TO_STRING !! name = Some r ∧ (s, Some f) ∈ r.
Proof.
  intros Hn Hne. destruct (fret_note_range _ _ _ Hn) as [Hs Hf].
  pose proof (forallb_range
    (fun s' => forallb
       (fun f' => match fret_note s' f' with
                  | Some name' =>
                    bool_decide (name' = "F2") ||
                    match NOTE_TO_STRING !! name' with
                    | Some r => bool_decide ((s', Some f') ∈ r)
                    | None => false
                    end
                  | None => true
                  end)
       (map (fun k => 1 + Z.of_nat k) (seq 0 22))) 1 6 s) as H.
  cbn beta in H.
  assert (H' : forallb
       (fun f' => match fret_note s f' with
                  | Some name' =>
                    bool_decide (name' = "F2") ||
                    match NOTE_TO_STRING !! name' with
                    | Some r => bool_decide ((s, Some f') ∈ r)
                    | None => false
                    end
                  | None => true
                  end)
       (map (fun k => 1 + Z.of_nat k) (seq 0 22)) = true).
  { apply H; [vm_compute; reflexivity | lia]. }
  clear H.
  pose proof (forallb_range _ 1 22 f H') as H. cbn beta in H.
  rewrite Hn in H. specialize (H ltac:(lia)).
  apply orb_true_iff in H as [H|H]; [by apply bool_decide_eq_true in H|].
  destruct (NOTE_TO_STRING !! name) as [r|]; [|done].
  apply bool_decide_eq_true in H. by exists r.
Qed.

Lemma chart_in_note_rows_witness :
  ∃ r : list (Z * option Z),
    NOTE_TO_STRING !! "C4" = Some r ∧ (2, Some 1) ∈ r.
Proof.
  refine (chart_in_note_rows 2 1 "C4" _ _).
  - vm_compute; reflexivity.
  - discriminate.
Defined.

(** The exception: F2 is on the chart and its row has no fret. *)
Lemma chart_F2_lost :
  fret_note 6 1 = Some "F2" ∧
  NOTE_TO_STRING !! "F2" = Some (mk_row None None None None None None).
Proof. split; vm_compute; reflexivity. Qed.

(** ** The vote of [get_key] *)

Section Vote.
Context {A : Type}.
Variable key : A → nat.

(** [max] returns the first element of greatest key. *)
Lemma py_max_split best l :
  ∃ l1 l2,
    best :: l = l1 ++ py_max key best l :: l2 ∧
    (∀ x, x ∈ l1 → (key x < key (py_max key best l))%nat) ∧
    (∀ x, x ∈ l2 → (key x ≤ key (py_max key best l))%nat).
Proof.
  revert best. induction l as [|x l IH]; intros best.
  - exists [], []. cbn [py_max]. split; [done|].
    split; intros y Hy; by apply elem_of_nil in Hy.
  - cbn [py_max]. destruct (Nat.ltb_spec (key best) (key x)) as [Hlt|Hge].
    + destruct (IH x) as (l1 & l2 & Heq & H1 & H2).
      remember (py_max key x l) as m eqn:Em. clear Em.
      assert (Hx : (key x ≤ key m)%nat).
      { destruct l1 as [|y l1].
        - injection Heq as -> _. lia.
        - injection Heq as <- _. assert (key x < key m)%nat; [|lia].
          apply H1. left. }
      exists (best :: l1), l2. rewrite Heq. split; [done|].
      split; [|done]. intros y [->|Hy]%elem_of_cons; [lia | by apply H1].
    + destruct (IH best) as (l1 & l2 & Heq & H1 & H2).
      remember (py_max key best l) as m eqn:Em. clear Em.
      destruct l1 as [|y l1].
      * injection Heq as Hm ->. exists [], (x :: l2). rewrite <- Hm.
        split; [done|]. split; [intros y Hy; by apply elem_of_nil in Hy|].
        intros y [->|Hy]%elem_of_cons; [lia|]. rewrite Hm. by apply H2.
      * injection Heq as <- ->. exists (best :: x :: l1), l2.
        split; [done|]. split; [|done].
        assert (key best < key m)%nat by (apply H1; left).
        intros z [->|[->|Hz]%elem_of_cons]%elem_of_cons; [done | lia |].
        apply H1. by right.
Qed.
End Vote.

(** X16.  [get_key] returns the first, in the order of the six analyses,
    of the keys that the most analyses predict: no analysis before it
    predicts a key with as many votes, none after it a key with more. *)
Theorem get_key_most_voted `{EqDecision P} {C : Type}
    (r1 r2 r3 r4 r5 r6 : list (P * string * C)) x1 x2 x3 x4 x5 x6 :
  list_index r1 0 = Ok x1 → list_index r2 0 = Ok x2 →
  list_index r3 0 = Ok x3 → list_index r4 0 = Ok x4 →
  list_index r5 0 = Ok x5 → list_index r6 0 = Ok x6 →
  ∃ k l1 l2,
    get_key r1 r2 r3 r4 r5 r6 = Ok k ∧
    [x1.1; x2.1; x3.1; x4.1; x5.1; x6.1] = l1 ++ k :: l2 ∧
    (∀ p, p ∈ l1 →
       (py_count [x1.1; x2.1; x3.1; x4.1; x5.1; x6.1] p
        < py_count [x1.1; x2.1; x3.1; x4.1; x5.1; x6.1] k)%nat) ∧
    (∀ p, p ∈ l2 →
       (py_count [x1.1; x2.1; x3.1; x4.1; x5.1; x6.1] p
        ≤ py_count [x1.1; x2.1; x3.1; x4.1; x5.1; x6.1] k)%nat).
Proof.
  intros H1 H2 H3 H4 H5 H6. unfold get_key.
  rewrite H1, H2, H3, H4, H5, H6. cbn [res_bind].
  destruct x1 as [[p1 m1] c1], x2 as [[p2 m2] c2], x3 as [[p3 m3] c3],
           x4 as [[p4 m4] c4], x5 as [[p5 m5] c5], x6 as [[p6 m6] c6].
  cbn [fst snd].
  destruct (py_max_split
              (py_count [(p1, m1); (p2, m2); (p3, m3); (p4, m4); (p5, m5);
                         (p6, m6)])
              (p1, m1) [(p2, m2); (p3, m3); (p4, m4); (p5, m5); (p6, m6)])
    as (l1 & l2 & Heq & Hl1 & Hl2).
  eexists _, l1, l2. split; [reflexivity|]. by split.
Qed.

Lemma get_key_most_voted_witness :
  ∃ k l1 l2,
    get_key [("A", "minor", 1)] [("C", "major", 2)] [("A", "minor", 3)]
            [("C", "major", 4)] [("G", "major", 5)] [("C", "major", 6)]
    = Ok k ∧
    [("A", "minor"); ("C", "major"); ("A", "minor"); ("C", "major");
     ("G", "major"); ("C", "major")] = l1 ++ k :: l2 ∧
    (∀ p, p ∈ l1 →
       (py_count [("A", "minor"); ("C", "major"); ("A", "minor");
                  ("C", "major"); ("G", "major"); ("C", "major")] p
        < py_count [("A", "minor"); ("C", "major"); ("A", "minor");
                    ("C", "major"); ("G", "major"); ("C", "major")] k)%nat) ∧
    (∀ p, p ∈ l2 →
       (py_count [("A", "minor"); ("C", "major"); ("A", "minor");
                  ("C", "major"); ("G", "major"); ("C", "major")] p
        ≤ py_count [("A", "minor"); ("C", "major"); ("A", "minor");
                    ("C", "major"); ("G", "major"); ("C", "major")] k)%nat).
Proof.
  apply (get_key_most_voted (P := string) (C := Z)
           [("A", "minor", 1)] [("C", "major", 2)] [("A", "minor", 3)]
           [("C", "major", 4)] [("G", "major", 5)] [("C", "major", 6)]
           ("A", "minor", 1) ("C", "major", 2) ("A", "minor", 3)
           ("C", "major", 4) ("G", "major", 5) ("C", "major", 6));
    reflexivity.
Defined.

(** ** The names of the pitches *)

Lemma str_replace_idem a b s :
  a ≠ b → str_replace a b (str_replace a b s) = str_replace a b s.
Proof.
  intros Hab. induction s as [|c s IH]; [done|]. cbn [str_replace].
  rewrite IH. f_equal. destruct (Ascii.eqb_spec c a) as [->|Hc].
  - destruct (Ascii.eqb_spec b a); [by subst | done].
  - by destruct (Ascii.eqb_spec c a).
Qed.

(** X17.  [_fix_note_name] changes nothing in a name it has returned for
    a [str]: the name has a digit at its end and no ['-'] left.
    [find_start] applies it to the tonic and again to the first pitch of
    the scale. *)
Theorem fix_note_name_idempotent s name :
  _fix_note_name (PStr s) = Ok name →
  _fix_note_name (PStr name) = Ok name ∧
  str_replace "-" "b" name = name.
Proof.
  unfold _fix_note_name.
  destruct (str_index (str_replace "-" "b" s) (-1)) as [c|e] eqn:Hc; [|done].
  cbn [res_bind]. destruct (is_digit c) eqn:Hd; [|done].
  intros [= <-]. rewrite str_replace_idem by done.
  rewrite Hc. cbn [res_bind]. by rewrite Hd.
Qed.

Lemma fix_note_name_idempotent_witness :
  _fix_note_name (PStr "Eb4") = Ok "Eb4" ∧ str_replace "-" "b" "Eb4" = "Eb4".
Proof.
  apply (fix_note_name_idempotent "E-4" "Eb4"). vm_compute; reflexivity.
Defined.
